(** * Greedy duplicate resolution of [tutorials/semantic_deduplication.ipynb]

    The notebook defines two resolvers on top of an external nearest-neighbour
    search: [deduplicate] (one collection against itself) and
    [deduplicate_across_datasets] (a query collection against a reference
    collection).  Both are embedded here as they are written: Python [int]s are
    [Z], the [set] of surviving indices is a [gset Z], the [dict] from removed
    to original index is a [gmap Z Z], and the operations of Python that can
    raise ([set.remove], list indexing) return in an error monad.

    The search itself is a library call; it is modelled by what it
    delivers, and the two functions are also stated as whole calls, the
    search followed by the pass.

    The rest of the notebook is embedded after them: the exact-match
    baseline, the loop of [deduplicate_with_minhash] over an index that is a
    parameter, and the two cells that print examples. *)

From Stdlib Require Import ZArith QArith Lia.
From stdpp Require Import base option list gmap fin_sets fin_maps sorting strings.

Local Open Scope Z_scope.
#[local] Set Warnings "-clear-no-such-hyp".

(** ** Exceptions and the error monad *)

Inductive exn : Type :=
  | KeyError (key : Z)     (* [set.remove(x)] with [x] absent *)
  | IndexError.            (* [l[0]] on an empty list *)

Inductive result (A : Type) : Type :=
  | Ok (a : A)
  | Raise (e : exn).
Arguments Ok {A} a.
Arguments Raise {A} e.

#[global] Instance result_ret : MRet result := λ A a, Ok a.
#[global] Instance result_bind : MBind result := λ A B f m,
  match m with
  | Ok a => f a
  | Raise e => Raise e
  end.

Definition completes {A} (r : result A) : bool :=
  match r with Ok _ => true | Raise _ => false end.

(** [s.remove(x)]: raises [KeyError] when [x] is not a member. *)
Definition set_remove (x : Z) (s : gset Z) : result (gset Z) :=
  if decide (x ∈ s) then Ok (s ∖ {[x]}) else Raise (KeyError x).

(** [l[k]] for a non-negative literal [k]: raises [IndexError] out of range. *)
Definition list_get {A} (l : list A) (k : nat) : result A :=
  match l !! k with
  | Some x => Ok x
  | None => Raise IndexError
  end.

(** ** Scores

    Scores and the threshold are floating-point numbers of which the code
    uses one operation only, the comparison [item[1] >= threshold].  The
    development is parametric in the score type and that comparison; equal
    scores compare as [>=], as they do for floats. *)

Class Score (score : Type) := {
  score_ge : score → score → bool;
  score_eqb : score → score → bool;
  score_eqb_ge : ∀ s t, score_eqb s t = true → score_ge s t = true
}.

(** ** The state of the same-dataset pass *)

Record dedup_state : Type := DedupState {
  deduplicated_indices : gset Z;
  duplicate_to_original_mapping : gmap Z Z
}.

(** One execution of [duplicate_to_original_mapping[sim_idx] = i]. *)
Record write_event : Type := WriteEvent {
  written_key : Z;
  written_value : Z;
  canonical_at_write : gset Z;
  mapping_before_write : gmap Z Z
}.

(** [set(range(n))] *)
Definition set_range (n : nat) : gset Z := list_to_set (seqZ 0 (Z.of_nat n)).

(** ** Invariants of the logged pass *)

(** Every logged assignment has a value that is canonical at that moment,
    and every entry of the mapping is the effect of a logged assignment. *)
Definition sources_canonical (st : dedup_state) (log : list write_event) : Prop :=
  (∀ w, w ∈ log → written_value w ∈ canonical_at_write w)
  ∧ (∀ j i, duplicate_to_original_mapping st !! j = Some i →
       ∃ w, w ∈ log ∧ written_key w = j ∧ written_value w = i).

(** The canonical set and the mapping never meet; every logged assignment
    created its key, which left the canonical set for good and is still
    mapped to the value written; between two assignments the canonical set
    can only have shrunk and the earlier entry is still in place. *)
Record trace_inv (st : dedup_state) (log : list write_event) : Prop := TraceInv {
  trace_fresh : ∀ j, j ∈ deduplicated_indices st →
    duplicate_to_original_mapping st !! j = None;
  trace_each : ∀ w, w ∈ log →
    mapping_before_write w !! written_key w = None
    ∧ (written_key w ∉ canonical_at_write w)
    ∧ deduplicated_indices st ⊆ canonical_at_write w
    ∧ duplicate_to_original_mapping st !! written_key w = Some (written_value w);
  trace_ordered : ∀ (a b : nat) w1 w2, (a < b)%nat →
    log !! a = Some w1 → log !! b = Some w2 →
    canonical_at_write w2 ⊆ canonical_at_write w1
    ∧ mapping_before_write w2 !! written_key w1 = Some (written_value w1)
}.

(** A property [Q] of state and log that every assignment by a canonical
    source preserves. *)
Definition preserved_by_writes (Q : dedup_state → list write_event → Prop) : Prop :=
  ∀ i x st log, Q st log →
    i ∈ deduplicated_indices st → x ≠ i → x ∈ deduplicated_indices st →
    Q (DedupState (deduplicated_indices st ∖ {[x]})
         (<[x:=i]> (duplicate_to_original_mapping st)))
      (log ++ [WriteEvent x i (deduplicated_indices st ∖ {[x]})
                 (duplicate_to_original_mapping st)]).

Section Resolvers.
Context {score : Type} `{Score score}.

(** An entry [(index, score)] of a neighbour list, with [int(item[0])]
    already taken. *)
Definition item : Type := Z * score.

(** [[int(item[0]) for item in similar_items if int(item[0]) != i]] *)
Definition similar_indices_excluding (i : Z) (similar_items : list item) : list Z :=
  (filter (λ it : item, it.1 ≠ i) similar_items).*1.

(** The inner loop of [deduplicate]:
    [for sim_idx in similar_indices:
       if sim_idx in deduplicated_indices:
         deduplicated_indices.remove(sim_idx)
         duplicate_to_original_mapping[sim_idx] = i] *)
Fixpoint mark_duplicates (i : Z) (similar_indices : list Z) (st : dedup_state)
  : result dedup_state :=
  match similar_indices with
  | [] => Ok st
  | sim_idx :: rest =>
      if decide (sim_idx ∈ deduplicated_indices st) then
        kept ← set_remove sim_idx (deduplicated_indices st);
        mark_duplicates i rest
          (DedupState kept (<[sim_idx := i]> (duplicate_to_original_mapping st)))
      else mark_duplicates i rest st
  end.

(** The outer loop, [for i, similar_items in enumerate(results)], started
    at counter [i]. *)
Fixpoint process_results (i : Z) (results : list (list item)) (st : dedup_state)
  : result dedup_state :=
  match results with
  | [] => Ok st
  | similar_items :: rest =>
      if decide (i ∈ deduplicated_indices st) then
        st' ← mark_duplicates i (similar_indices_excluding i similar_items) st;
        process_results (i + 1) rest st'
      else process_results (i + 1) rest st      (* [continue] *)
  end.

(** [deduplicate]: [n] is [len(embedding_matrix)] and [results] the value
    of [reach.nearest_neighbor_threshold(embedding_matrix, threshold=...)],
    the one place where the threshold is used.  The returned array
    [np.array(list(deduplicated_indices))] is kept as the set it lists. *)
Definition deduplicate (n : nat) (results : list (list item))
  : result (gset Z * gmap Z Z) :=
  st ← process_results 0 results (DedupState (set_range n) ∅);
  Ok (deduplicated_indices st, duplicate_to_original_mapping st).

(** ** The cross-dataset pass *)

(** [[int(item[0]) for item in similar_items if item[1] >= threshold]] *)
Definition similar_indices_above (threshold : score) (similar_items : list item)
  : list Z :=
  (filter (λ it : item, score_ge it.2 threshold = true) similar_items).*1.

Fixpoint process_across (i : Z) (results : list (list item)) (threshold : score)
    (st : list Z * gmap Z Z) : result (list Z * gmap Z Z) :=
  match results with
  | [] => Ok st
  | similar_items :: rest =>
      let similar_indices := similar_indices_above threshold similar_items in
      match similar_indices with
      | _ :: _ =>                                 (* [if similar_indices:] *)
          first ← list_get similar_indices 0;
          process_across (i + 1) rest threshold (st.1 ++ [i], <[i := first]> st.2)
      | [] => process_across (i + 1) rest threshold st
      end
  end.

(** [deduplicate_across_datasets]: [results] is the value of
    [reach.nearest_neighbor_threshold(embedding_matrix_2, threshold=...)]
    on the index built from [embedding_matrix_1]. *)
Definition deduplicate_across_datasets (results : list (list item))
    (threshold : score) : result (list Z * gmap Z Z) :=
  process_across 0 results threshold ([], ∅).

(** ** The search and the whole calls *)

(** Modelled from the spec: the external search
    [Reach(vectors=..., items=[str(i) for i in range(len(...))])
       .nearest_neighbor_threshold(queries, threshold=threshold, ...)],
    which is not code of the notebook.  For the query row [q] it delivers
    pairs [(j, score(q, j))] of the document indices [j] of the [n] indexed
    rows whose score is at or above the threshold, in an order of its own
    choosing.  [similarity q j] is the score it computes for the two rows,
    [arrange] what it does to the list of the qualifying pairs (the library
    puts them in descending order of score). *)
Definition threshold_candidates (similarity : nat → nat → score)
    (arrange : list item → list item) (q n : nat) (threshold : score)
  : list item :=
  arrange (filter (λ it : item, score_ge it.2 threshold = true)
             ((λ d : nat, (Z.of_nat d, similarity q d)) <$> seq 0 n)).

(** One list for each of the [n_queries] query rows. *)
Definition nearest_neighbor_threshold (similarity : nat → nat → score)
    (arrange : list item → list item) (n_indexed n_queries : nat)
    (threshold : score) : list (list item) :=
  (λ q, threshold_candidates similarity arrange q n_indexed threshold)
  <$> seq 0 n_queries.

(** [deduplicate(embedding_matrix, threshold)] as a whole, for a matrix of
    [n] rows: the search of the matrix against itself, then the pass. *)
Definition deduplicate_call (similarity : nat → nat → score)
    (arrange : list item → list item) (n : nat) (threshold : score)
  : result (gset Z * gmap Z Z) :=
  deduplicate n (nearest_neighbor_threshold similarity arrange n n threshold).


(** ** The pass with its history

    For the statements about the moment of an assignment the same two loops
    are run with a log: every execution of
    [duplicate_to_original_mapping[sim_idx] = i] appends the key, the value,
    the canonical set as it is at that statement (after the [remove]) and
    the mapping as it was just before.  The log is never read by the loops. *)

Fixpoint mark_duplicates_traced (i : Z) (similar_indices : list Z)
    (st : dedup_state) (log : list write_event)
  : result (dedup_state * list write_event) :=
  match similar_indices with
  | [] => Ok (st, log)
  | sim_idx :: rest =>
      if decide (sim_idx ∈ deduplicated_indices st) then
        kept ← set_remove sim_idx (deduplicated_indices st);
        mark_duplicates_traced i rest
          (DedupState kept (<[sim_idx := i]> (duplicate_to_original_mapping st)))
          (log ++ [WriteEvent sim_idx i kept (duplicate_to_original_mapping st)])
      else mark_duplicates_traced i rest st log
  end.

Fixpoint process_results_traced (i : Z) (results : list (list item))
    (st : dedup_state) (log : list write_event)
  : result (dedup_state * list write_event) :=
  match results with
  | [] => Ok (st, log)
  | similar_items :: rest =>
      if decide (i ∈ deduplicated_indices st) then
        r ← mark_duplicates_traced i (similar_indices_excluding i similar_items) st log;
        process_results_traced (i + 1) rest r.1 r.2
      else process_results_traced (i + 1) rest st log
  end.

Definition deduplicate_traced (n : nat) (results : list (list item))
  : result (gset Z * gmap Z Z * list write_event) :=
  r ← process_results_traced 0 results (DedupState (set_range n) ∅) [];
  Ok (deduplicated_indices r.1, duplicate_to_original_mapping r.1, r.2).

(** ** Properties of the input *)

(** [j] is an entry, with score [s], of the neighbour list of document [a]. *)
Definition neighbour (results : list (list item)) (a : nat) (j : Z) (s : score)
  : Prop :=
  ∃ l, results !! a = Some l ∧ (j, s) ∈ l.

Definition listed (results : list (list item)) (a : nat) (j : Z) : Prop :=
  ∃ s, neighbour results a j s.

(** If [b] is listed for [a], then [a] is listed for [b]. *)
Definition symmetric (results : list (list item)) : Prop :=
  ∀ a b : nat, listed results a (Z.of_nat b) → listed results b (Z.of_nat a).

(** What the upstream search promises for the threshold it was given:
    every delivered entry has a score at or above it. *)
Definition thresholded (threshold : score) (results : list (list item)) : Prop :=
  Forall (Forall (λ it : item, score_ge it.2 threshold = true)) results.

(** Every candidate index is a document index, [0 <= j < n]. *)
Definition indices_in_range (n : nat) (results : list (list item)) : Prop :=
  Forall (Forall (λ it : item, 0 ≤ it.1 < Z.of_nat n)) results.

(** ** Invariants of the same-dataset pass *)

(** What holds of the state once the first [k] lists of [results] have been
    consumed: the canonical set is what is left of [0..n-1], every mapping
    entry comes from the list of an earlier source, and a source that is
    still canonical has removed everything it lists. *)
Record pass_inv (n : nat) (results : list (list item)) (k : nat)
    (st : dedup_state) : Prop := PassInv {
  inv_kept : ∀ j, j ∈ deduplicated_indices st ↔
    (0 ≤ j < Z.of_nat n ∧ duplicate_to_original_mapping st !! j = None);
  inv_range : ∀ j i, duplicate_to_original_mapping st !! j = Some i →
    0 ≤ j < Z.of_nat n;
  inv_origin : ∀ j i, duplicate_to_original_mapping st !! j = Some i →
    j ≠ i ∧ ∃ a s, (a < k)%nat ∧ i = Z.of_nat a ∧ neighbour results a j s;
  inv_done : ∀ a j, (a < k)%nat → Z.of_nat a ∈ deduplicated_indices st →
    listed results a j → j ≠ Z.of_nat a → j ∉ deduplicated_indices st
}.

(** Every representative is canonical. *)
Definition representatives_kept (st : dedup_state) : Prop :=
  ∀ j i, duplicate_to_original_mapping st !! j = Some i →
         i ∈ deduplicated_indices st.

(** The cluster [{2, 5, 7}] before and after document 2 has had its turn. *)
Definition cluster_inv (k : nat) (st : dedup_state) : Prop :=
  ((k ≤ 2)%nat → 2 ∈ deduplicated_indices st ∧ 5 ∈ deduplicated_indices st
                 ∧ 7 ∈ deduplicated_indices st)
  ∧ ((2 < k)%nat → 2 ∈ deduplicated_indices st
                 ∧ (5 ∉ deduplicated_indices st) ∧ (7 ∉ deduplicated_indices st)
                 ∧ duplicate_to_original_mapping st !! 5 = Some 2
                 ∧ duplicate_to_original_mapping st !! 7 = Some 2).

(** ** Invariant of the cross-dataset pass *)

(** Once the lists [consumed] have been processed: a query index is in the
    list exactly when its filtered candidate list is not empty, it is
    mapped to the head of that list, and nothing else has been touched. *)
Record across_inv (threshold : score) (consumed : list (list item))
    (st : list Z * gmap Z Z) : Prop := AcrossInv {
  across_listed : ∀ (a : nat) l, consumed !! a = Some l →
    (Z.of_nat a ∈ st.1 ↔ similar_indices_above threshold l ≠ [])
    ∧ st.2 !! Z.of_nat a = head (similar_indices_above threshold l);
  across_range : ∀ x, x ∈ st.1 ∨ is_Some (st.2 !! x) →
    0 ≤ x < Z.of_nat (length consumed)
}.

End Resolvers.

(** Rational scores, compared as numbers, for the sample inputs. *)
#[global] Program Instance Q_Score : Score Q := {|
  score_ge s t := Qle_bool t s;
  score_eqb s t := Qeq_bool s t
|}.
Next Obligation.
  intros s t Heq. apply Qle_bool_iff. apply Qeq_bool_iff in Heq.
  rewrite Heq. apply Qle_refl.
Qed.

(** ** Sample inputs, with rational scores *)

(** Document 2 lists document 0, which does not list it back. *)
Definition asymmetric_results : list (list (Z * Q)) :=
  [[(1, 1#1)]; []; [(0, 1#1)]].

(** Every document has itself as its only neighbour. *)
Definition self_results : list (list (Z * Q)) :=
  [[(0, 1#1)]; [(1, 1#1)]].

(** The scores of two near-identical sentences and a third one: 1 for a
    sentence with itself, 99/100 for the first two, 1/10 otherwise. *)
Definition cat_similarity (a b : nat) : Q :=
  if decide (a = b) then 1#1
  else if decide (a + b = 1)%nat then 99#100 else 1#10.

(** Two near-identical sentences and a third one, self-pairs included. *)
Definition cat_results : list (list (Z * Q)) :=
  [[(0, 1#1); (1, 99#100)]; [(1, 1#1); (0, 99#100)]; [(2, 1#1)]].

(** Eight documents of which 2, 5 and 7 are mutually similar. *)
Definition cluster_results : list (list (Z * Q)) :=
  [[(0, 1#1)]; [(1, 1#1)];
   [(2, 1#1); (5, 99#100); (7, 99#100)];
   [(3, 1#1)]; [(4, 1#1)];
   [(5, 1#1); (2, 99#100); (7, 99#100)];
   [(6, 1#1)];
   [(7, 1#1); (2, 99#100); (5, 99#100)]].

(** Candidates below, at and above the threshold 99/100, and a query with
    none at or above it. *)
Definition boundary_results : list (list (Z * Q)) :=
  [[(4, 1#2); (3, 99#100); (8, 1#1)]; [(6, 98#100)]].


(** ** Out-of-range candidates *)

(** The neighbour lists with every entry whose index is not a document
    index, [0 <= j < n], taken out. *)
Definition in_range_only {score : Type} (n : nat)
    (results : list (list (@item score))) : list (list (@item score)) :=
  map (filter (λ it : item, 0 ≤ it.1 < Z.of_nat n)) results.

(** ** The exact-match baseline

    The cell that precedes [deduplicate]:
    [seen = set(); deduplicated_text_indices = []
     for i, text in enumerate(texts):
       if text not in seen:
         deduplicated_text_indices.append(i); seen.add(text)] *)

Fixpoint exact_pass (i : Z) (texts : list string) (st : gset string * list Z)
  : gset string * list Z :=
  match texts with
  | [] => st
  | text :: rest =>
      if decide (text ∉ st.1) then
        exact_pass (i + 1) rest ({[text]} ∪ st.1, st.2 ++ [i])
      else exact_pass (i + 1) rest st
  end.

(** The value of [deduplicated_text_indices] when the cell has run. *)
Definition exact_deduplicated_text_indices (texts : list string) : list Z :=
  (exact_pass 0 texts (∅, [])).2.

(** [a] is the first position at which its text occurs. *)
Definition first_occurrence (texts : list string) (a : nat) : Prop :=
  ∃ text, texts !! a = Some text ∧ ∀ b, (b < a)%nat → texts !! b ≠ Some text.

(** What holds once the texts [consumed] have been seen. *)
Record exact_inv (consumed : list string) (st : gset string * list Z) : Prop :=
  ExactInv {
    exact_seen : st.1 = list_to_set consumed;
    exact_sorted : StronglySorted Z.lt st.2;
    exact_first : ∀ x, x ∈ st.2 ↔
      ∃ a : nat, x = Z.of_nat a ∧ first_occurrence consumed a;
    exact_count : length st.2 = size st.1
  }.

(** ** Deduplication with MinHash

    [get_minhash] and [deduplicate_with_minhash] drive the external
    [datasketch] library.  What the library computes is a parameter here:
    the fresh [MinHash(num_perm)], its [update] with the bytes of a word,
    [str.split()], and [lsh_query threshold inserted m], the list that
    [lsh.query(m)] returns on [MinHashLSH(threshold=threshold)] after the
    entries [inserted] have been put in, in that order.  The index is kept as
    the list of its insertions. *)

Section MinHash.
Context {minhash threshold_type : Type}.
Variable new_minhash : nat → minhash.
Variable update : minhash → string → minhash.
Variable str_split : string → list string.
Variable lsh_query : threshold_type → list (Z * minhash) → minhash → list Z.

(** [m = MinHash(num_perm=num_perm)
     for word in text.split(): m.update(word.encode('utf8'))
     return m] *)
Definition get_minhash (text : string) (num_perm : nat) : minhash :=
  foldl update (new_minhash num_perm) (str_split text).

(** The loop of [deduplicate_with_minhash], on the insertions made so far
    and the indices kept so far; [get_minhash(text)] has [num_perm = 128]. *)
Fixpoint minhash_pass (threshold : threshold_type) (i : Z) (texts : list string)
    (st : list (Z * minhash) * list Z) : list (Z * minhash) * list Z :=
  match texts with
  | [] => st
  | text :: rest =>
      let minhash := get_minhash text 128 in
      match lsh_query threshold st.1 minhash with
      | [] =>                                     (* [if not lsh.query(minhash):] *)
          minhash_pass threshold (i + 1) rest (st.1 ++ [(i, minhash)], st.2 ++ [i])
      | _ :: _ => minhash_pass threshold (i + 1) rest st
      end
  end.

Definition deduplicate_with_minhash (texts : list string)
    (threshold : threshold_type) : list Z :=
  (minhash_pass threshold 0 texts ([], [])).2.

(** The insertions [(k, get_minhash(texts[k]))] for the indices [k] of a list. *)
Definition kept_entries (texts : list string) (kept : list Z)
  : list (Z * minhash) :=
  omap (λ k, (λ text, (k, get_minhash text 128)) <$> texts !! Z.to_nat k) kept.

(** Those of them with an index below [a]. *)
Definition entries_before (texts : list string) (kept : list Z) (a : Z)
  : list (Z * minhash) :=
  kept_entries texts (filter (λ k, k < a) kept).

(** What holds once the texts [consumed] have been looked at. *)
Record minhash_inv (threshold : threshold_type) (consumed : list string)
    (st : list (Z * minhash) * list Z) : Prop := MinhashInv {
  minhash_sorted : StronglySorted Z.lt st.2;
  minhash_range : ∀ x, x ∈ st.2 → 0 ≤ x < Z.of_nat (length consumed);
  minhash_inserted : st.1 = kept_entries consumed st.2;
  minhash_kept : ∀ (a : nat) text, consumed !! a = Some text →
    (Z.of_nat a ∈ st.2 ↔
     lsh_query threshold (entries_before consumed st.2 (Z.of_nat a))
       (get_minhash text 128) = [])
}.

End MinHash.

(** ** Showing examples

    The two cells that print a few duplicates with their originals.  What is
    printed is kept as the list of the printed strings; [num_examples] is 5
    in both cells.  [display_word_differences] rests on [difflib.ndiff] and
    is a parameter.  When an exception is raised the lines printed before it
    are not kept. *)

(** [d[k]] on a [dict]: raises [KeyError] for a missing key. *)
Definition dict_get (d : gmap Z Z) (k : Z) : result Z :=
  match d !! k with
  | Some v => Ok v
  | None => Raise (KeyError k)
  end.

(** [l[k]] on a list: a negative [k] counts from the end, and an index
    outside [-len(l) <= k < len(l)] raises [IndexError]. *)
Definition py_index {A} (l : list A) (k : Z) : result A :=
  if decide (0 ≤ k) then list_get l (Z.to_nat k)
  else if decide (- Z.of_nat (length l) ≤ k)
       then list_get l (Z.to_nat (Z.of_nat (length l) + k))
       else Raise IndexError.

Definition valid_index {A} (l : list A) (k : Z) : Prop :=
  - Z.of_nat (length l) ≤ k < Z.of_nat (length l).

(** The one-character string of a line feed. *)
Definition newline : string := String (Ascii.ascii_of_nat 10) EmptyString.

(** [s * n] on strings. *)
Fixpoint str_mul (s : string) (n : nat) : string :=
  match n with
  | O => EmptyString
  | S n' => s +:+ str_mul s n'
  end.

Section Display.
Variable display_word_differences : string → string → string.

(** The body of the loop over
    [list(duplicate_to_original_mapping.items())[:num_examples]], for one
    item of the mapping. *)
Definition show_duplicate (texts : list string) (duplicate_idx original_idx : Z)
  : result (list string) :=
  original ← py_index texts original_idx;
  duplicate ← py_index texts duplicate_idx;
  x ← py_index texts original_idx;
  y ← py_index texts duplicate_idx;
  Ok ["Original text:" +:+ newline +:+ original;
      "Duplicate text:" +:+ newline +:+ duplicate;
      "Differences:";
      display_word_differences x y;
      str_mul "-" 50].

(** The body of the loop over [duplicate_indices_in_test[:num_examples]]. *)
Definition show_overlap (texts_train texts_test : list string)
    (duplicate_to_original_mapping : gmap Z Z) (test_idx : Z)
  : result (list string) :=
  train_idx ← dict_get duplicate_to_original_mapping test_idx;
  train ← py_index texts_train train_idx;
  test ← py_index texts_test test_idx;
  x ← py_index texts_train train_idx;
  y ← py_index texts_test test_idx;
  Ok ["Train text:" +:+ newline +:+ train;
      "Test text:" +:+ newline +:+ test;
      "Differences:";
      display_word_differences x y;
      str_mul "-" 50].

Fixpoint show_overlaps (texts_train texts_test : list string)
    (duplicate_to_original_mapping : gmap Z Z) (indices : list Z)
    (printed : list string) : result (list string) :=
  match indices with
  | [] => Ok printed
  | test_idx :: rest =>
      lines ← show_overlap texts_train texts_test duplicate_to_original_mapping
                test_idx;
      show_overlaps texts_train texts_test duplicate_to_original_mapping rest
        (printed ++ lines)
  end.

(** The cell after [deduplicate_across_datasets]. *)
Definition show_test_overlaps (texts_train texts_test : list string)
    (duplicate_indices_in_test : list Z)
    (duplicate_to_original_mapping : gmap Z Z) (num_examples : nat)
  : result (list string) :=
  show_overlaps texts_train texts_test duplicate_to_original_mapping
    (take num_examples duplicate_indices_in_test) [].

End Display.

(** ** Sample inputs for the rest of the notebook *)

Definition sample_texts : list string :=
  ["a cat sat"; "a dog ran"; "a cat sat"; "a cat sat."]%string.

(** A stand-in for the MinHash of a text: the list of its words, with the
    whole text as its only word. *)
Definition sample_update (m : list string) (word : string) : list string :=
  m ++ [word].

(** A stand-in for the LSH index: a query finds the keys inserted with the
    very MinHash asked for. *)
Definition sample_lsh_query (threshold : Q) (inserted : list (Z * list string))
    (m : list string) : list Z :=
  (filter (λ e : Z * list string, e.2 = m) inserted).*1.

(** A stand-in for [display_word_differences]. *)
Definition sample_differences (x y : string) : string := (x +:+ " | " +:+ y)%string.

(** ** The inner loop *)

Section InnerLoop.
Implicit Types (i j : Z) (l : list Z) (st : dedup_state).

Lemma set_remove_member x (s : gset Z) :
  x ∈ s → set_remove x s = Ok (s ∖ {[x]}).
Proof. intros Hx. unfold set_remove. by rewrite decide_True. Qed.

(** The guard [if sim_idx in deduplicated_indices] makes the [remove] safe:
    the loop always completes, and its effect has a closed form. *)
Lemma mark_duplicates_spec i l st :
  ∃ st', mark_duplicates i l st = Ok st'
    ∧ deduplicated_indices st' = deduplicated_indices st ∖ list_to_set l
    ∧ ∀ j, duplicate_to_original_mapping st' !! j =
             if decide (j ∈ deduplicated_indices st ∧ j ∈ l) then Some i
             else duplicate_to_original_mapping st !! j.
Proof.
  revert st. induction l as [|x l IH]; intros st.
  - exists st. split; [done|]. split; [set_solver|].
    intros j. rewrite decide_False; [done|]. set_solver.
  - cbn [mark_duplicates]. destruct (decide (x ∈ deduplicated_indices st)) as [Hx|Hx].
    + rewrite set_remove_member by done. cbn.
      destruct (IH (DedupState (deduplicated_indices st ∖ {[x]})
                      (<[x:=i]> (duplicate_to_original_mapping st))))
        as (st' & Hrun & Hkept & Hdup).
      exists st'. split; [done|]. cbn in Hkept, Hdup. split.
      * rewrite Hkept. set_solver.
      * intros j. rewrite Hdup. destruct (decide (j = x)) as [->|Hne].
        -- rewrite decide_False by set_solver.
           rewrite decide_True by set_solver. by rewrite lookup_insert_eq.
        -- rewrite lookup_insert_ne by done.
           repeat case_decide; set_solver.
    + destruct (IH st) as (st' & Hrun & Hkept & Hdup).
      exists st'. split; [done|]. split.
      * rewrite Hkept. set_solver.
      * intros j. rewrite Hdup. repeat case_decide; set_solver.
Qed.

End InnerLoop.

(** ** The outer loop *)

Section OuterLoop.
Context {score : Type}.
Implicit Types (results : list (list (@item score))) (st : dedup_state).

Lemma similar_indices_excluding_elem (i j : Z) (l : list (@item score)) :
  j ∈ similar_indices_excluding i l ↔ j ≠ i ∧ ∃ s, (j, s) ∈ l.
Proof.
  unfold similar_indices_excluding. rewrite list_elem_of_fmap. split.
  - intros ([j' s] & -> & Hin). apply list_elem_of_filter in Hin as [Hne Hin].
    split; [done|]. by exists s.
  - intros (Hne & s & Hin). exists (j, s). split; [done|].
    by apply list_elem_of_filter.
Qed.

(** An invariant [P k st] of "[k] lists have been consumed" is carried
    through the whole pass; the pass completes. *)
Lemma process_results_suffix (P : nat → dedup_state → Prop) results :
  (∀ k l st, results !! k = Some l → P k st →
     Z.of_nat k ∉ deduplicated_indices st → P (S k) st) →
  (∀ k l st st', results !! k = Some l → P k st →
     Z.of_nat k ∈ deduplicated_indices st →
     deduplicated_indices st' =
       deduplicated_indices st ∖ list_to_set (similar_indices_excluding (Z.of_nat k) l) →
     (∀ j, duplicate_to_original_mapping st' !! j =
             if decide (j ∈ deduplicated_indices st
                        ∧ j ∈ similar_indices_excluding (Z.of_nat k) l)
             then Some (Z.of_nat k)
             else duplicate_to_original_mapping st !! j) →
     P (S k) st') →
  ∀ post pre st, results = pre ++ post → P (length pre) st →
    ∃ st', process_results (Z.of_nat (length pre)) post st = Ok st'
           ∧ P (length results) st'.
Proof.
  intros Hskip Hmark. induction post as [|l post IH]; intros pre st Hres HP.
  - exists st. split; [done|]. subst results. by rewrite app_nil_r.
  - assert (Hl : results !! length pre = Some l).
    { subst results. by rewrite list_lookup_middle. }
    assert (Hnext : Z.of_nat (length pre) + 1 = Z.of_nat (length (pre ++ [l]))).
    { rewrite length_app. cbn. lia. }
    assert (Hlen : S (length pre) = length (pre ++ [l])).
    { rewrite length_app. cbn. lia. }
    assert (Hres' : results = (pre ++ [l]) ++ post).
    { by rewrite <- app_assoc. }
    cbn [process_results].
    destruct (decide (Z.of_nat (length pre) ∈ deduplicated_indices st)) as [Hk|Hk].
    + destruct (mark_duplicates_spec (Z.of_nat (length pre))
                  (similar_indices_excluding (Z.of_nat (length pre)) l) st)
        as (st1 & Hrun & Hkept & Hdup).
      rewrite Hrun. cbn. rewrite Hnext. apply IH; [done|].
      rewrite <- Hlen. by eapply Hmark.
    + rewrite Hnext. apply IH; [done|]. rewrite <- Hlen. by eapply Hskip.
Qed.

Lemma process_results_invariant (P : nat → dedup_state → Prop) results st0 :
  P 0%nat st0 →
  (∀ k l st, results !! k = Some l → P k st →
     Z.of_nat k ∉ deduplicated_indices st → P (S k) st) →
  (∀ k l st st', results !! k = Some l → P k st →
     Z.of_nat k ∈ deduplicated_indices st →
     deduplicated_indices st' =
       deduplicated_indices st ∖ list_to_set (similar_indices_excluding (Z.of_nat k) l) →
     (∀ j, duplicate_to_original_mapping st' !! j =
             if decide (j ∈ deduplicated_indices st
                        ∧ j ∈ similar_indices_excluding (Z.of_nat k) l)
             then Some (Z.of_nat k)
             else duplicate_to_original_mapping st !! j) →
     P (S k) st') →
  ∃ st', process_results 0 results st0 = Ok st' ∧ P (length results) st'.
Proof.
  intros H0 Hskip Hmark.
  by apply (process_results_suffix P results Hskip Hmark results [] st0).
Qed.

End OuterLoop.

(** ** The invariant of the pass *)

Section PassInvariant.
Context {score : Type}.
Implicit Types (results : list (list (@item score))) (st : dedup_state).

Lemma elem_of_set_range (n : nat) (j : Z) : j ∈ set_range n ↔ 0 ≤ j < Z.of_nat n.
Proof. unfold set_range. rewrite elem_of_list_to_set, elem_of_seqZ. lia. Qed.

Lemma pass_inv_init n results :
  pass_inv n results 0 (DedupState (set_range n) ∅).
Proof.
  split; cbn.
  - intros j. rewrite elem_of_set_range, lookup_empty. naive_solver.
  - intros j i. by rewrite lookup_empty.
  - intros j i. by rewrite lookup_empty.
  - intros a j Ha. lia.
Qed.

Lemma pass_inv_skip n results k st :
  pass_inv n results k st → Z.of_nat k ∉ deduplicated_indices st →
  pass_inv n results (S k) st.
Proof.
  intros [Hkept Hrange Horigin Hdone] Hk. split; [done|done|..].
  - intros j i Hji. destruct (Horigin j i Hji) as (Hne & a & s & Ha & Hi & Hn).
    split; [done|]. exists a, s. split; [lia|done].
  - intros a j Ha Hin Hlisted Hne.
    destruct (decide (a = k)) as [->|Hak]; [done|].
    apply (Hdone a); [lia|done..].
Qed.

Lemma pass_inv_mark n results k l st st' :
  results !! k = Some l →
  pass_inv n results k st →
  Z.of_nat k ∈ deduplicated_indices st →
  deduplicated_indices st' =
    deduplicated_indices st ∖ list_to_set (similar_indices_excluding (Z.of_nat k) l) →
  (∀ j, duplicate_to_original_mapping st' !! j =
          if decide (j ∈ deduplicated_indices st
                     ∧ j ∈ similar_indices_excluding (Z.of_nat k) l)
          then Some (Z.of_nat k)
          else duplicate_to_original_mapping st !! j) →
  pass_inv n results (S k) st'.
Proof.
  intros Hl [Hkept Hrange Horigin Hdone] Hk Hkept' Hdup'. split.
  - intros j. rewrite Hkept', Hdup', elem_of_difference, elem_of_list_to_set.
    case_decide as Hc; [naive_solver|]. rewrite Hkept in *. naive_solver.
  - intros j i. rewrite Hdup'. case_decide as Hc; [|by apply Hrange].
    intros _. destruct Hc as [Hc _]. apply Hkept in Hc. tauto.
  - intros j i. rewrite Hdup'. case_decide as Hc.
    + intros [= <-]. destruct Hc as [_ Hc].
      apply similar_indices_excluding_elem in Hc as (Hne & s & Hin).
      split; [done|]. exists k, s. split; [lia|]. split; [done|]. by exists l.
    + intros Hji. destruct (Horigin j i Hji) as (Hne & a & s & Ha & Hi & Hn).
      split; [done|]. exists a, s. split; [lia|done].
  - intros a j Ha. rewrite !Hkept', !elem_of_difference, !elem_of_list_to_set.
    intros [Hin _] Hlisted Hne [Hj Hnot].
    destruct (decide (a = k)) as [->|Hak].
    + apply Hnot, similar_indices_excluding_elem. split; [done|].
      destruct Hlisted as (s & l' & Hl' & Hin'). exists s. congruence.
    + by apply (Hdone a j); [lia|..].
Qed.

(** The pass completes from the initial state, and the invariant holds of
    its final state. *)
Lemma process_results_pass_inv n results :
  ∃ st, process_results 0 results (DedupState (set_range n) ∅) = Ok st
        ∧ pass_inv n results (length results) st.
Proof.
  apply (process_results_invariant (pass_inv n results)).
  - apply pass_inv_init.
  - intros k l st _. apply pass_inv_skip.
  - intros k l st st'. apply pass_inv_mark.
Qed.

Lemma deduplicate_of_process n results st :
  process_results 0 results (DedupState (set_range n) ∅) = Ok st →
  deduplicate n results
  = Ok (deduplicated_indices st, duplicate_to_original_mapping st).
Proof. unfold deduplicate. by intros ->. Qed.

(** [deduplicate] returns, and the invariant holds of what it returns. *)
Lemma deduplicate_pass_inv n results :
  ∃ kept dup, deduplicate n results = Ok (kept, dup)
              ∧ pass_inv n results (length results) (DedupState kept dup).
Proof.
  destruct (process_results_pass_inv n results) as ([kept dup] & Hst & Hinv).
  exists kept, dup. split; [by apply deduplicate_of_process in Hst|done].
Qed.

End PassInvariant.

(** ** Results on the same-dataset resolver *)

Section SameDataset.
Context {score : Type} `{Score score}.
Implicit Types (results : list (list (@item score))) (st : dedup_state).

Lemma self_not_in_similar_indices (i : Z) (l : list (@item score)) :
  i ∉ similar_indices_excluding i l.
Proof. rewrite similar_indices_excluding_elem. naive_solver. Qed.

(** Under a symmetric relation no canonical source ever removes an earlier
    representative, so representatives stay canonical through the pass. *)
Lemma process_results_representatives n results :
  symmetric results →
  ∃ st, process_results 0 results (DedupState (set_range n) ∅) = Ok st
        ∧ pass_inv n results (length results) st ∧ representatives_kept st.
Proof.
  intros Hsym.
  apply (process_results_invariant
           (λ k st, pass_inv n results k st ∧ representatives_kept st)).
  - split; [apply pass_inv_init|]. intros j i. cbn. by rewrite lookup_empty.
  - intros k l st _ [Hinv Hrep] Hk. split; [by apply pass_inv_skip|done].
  - intros k l st st' Hl [Hinv Hrep] Hk Hkept' Hdup'.
    split; [by eapply pass_inv_mark|].
    intros j i. rewrite Hdup', Hkept', elem_of_difference, elem_of_list_to_set.
    case_decide as Hc.
    + intros [= <-]. split; [done|]. apply self_not_in_similar_indices.
    + intros Hji. split; [by eapply Hrep|].
      rewrite similar_indices_excluding_elem. intros (Hne & s & Hin).
      destruct (inv_origin _ _ _ _ Hinv j i Hji) as (_ & a & s' & Ha & -> & _).
      assert (Hback : listed results a (Z.of_nat k)).
      { apply Hsym. exists s, l. done. }
      refine (inv_done _ _ _ _ Hinv a (Z.of_nat k) Ha _ Hback _ Hk).
      * by eapply Hrep.
      * lia.
Qed.

(** C1, as amended: when the neighbour relation is symmetric, the resolver
    returns a kept set and a mapping such that every value of the mapping is
    a member of the kept set. *)
Theorem representative_valid_if_symmetric n results :
  symmetric results →
  ∃ kept dup, deduplicate n results = Ok (kept, dup)
              ∧ ∀ j i, dup !! j = Some i → i ∈ kept.
Proof.
  intros Hsym.
  destruct (process_results_representatives n results Hsym)
    as ([kept dup] & Hst & _ & Hrep).
  exists kept, dup. split; [by apply deduplicate_of_process in Hst|exact Hrep].
Qed.

(** On lists that hold only entries at or above the threshold, every index
    [j] that the pass removes and maps to [i] is an entry [(j, s)] of the
    list of [i] with [s >= threshold]. *)
Lemma mapped_only_from_thresholded_entry threshold n results :
  thresholded threshold results →
  ∃ kept dup, deduplicate n results = Ok (kept, dup)
    ∧ ∀ j i, dup !! j = Some i →
        (j ∉ kept) ∧ ∃ a s, i = Z.of_nat a ∧ neighbour results a j s
                            ∧ score_ge s threshold = true.
Proof.
  intros Hthr. destruct (deduplicate_pass_inv n results) as (kept & dup & Hrun & Hinv).
  exists kept, dup. split; [done|]. intros j i Hji. split.
  - intros Hj. apply (inv_kept _ _ _ _ Hinv) in Hj. cbn in Hj. naive_solver.
  - destruct (inv_origin _ _ _ _ Hinv j i Hji) as (_ & a & s & _ & -> & Hn).
    exists a, s. split; [done|]. split; [done|].
    destruct Hn as (l & Hl & Hin). unfold thresholded in Hthr.
    rewrite Forall_lookup in Hthr. specialize (Hthr a l Hl).
    rewrite Forall_forall in Hthr. by apply (Hthr (j, s)).
Qed.

(** C3: the resolver returns a kept set and a mapping whose key set is
    disjoint from the kept set, and the two together are exactly
    [{0, ..., n-1}]. *)
Theorem kept_and_duplicates_partition n results :
  ∃ kept dup, deduplicate n results = Ok (kept, dup)
              ∧ kept ## dom dup ∧ kept ∪ dom dup = set_range n.
Proof.
  destruct (deduplicate_pass_inv n results) as (kept & dup & Hrun & Hinv).
  exists kept, dup. split; [done|].
  pose proof (inv_kept _ _ _ _ Hinv) as Hkept.
  pose proof (inv_range _ _ _ _ Hinv) as Hrange. cbn in Hkept, Hrange. split.
  - intros j Hj [i Hi]%elem_of_dom. apply Hkept in Hj. naive_solver.
  - apply set_eq. intros j.
    rewrite elem_of_union, elem_of_set_range, elem_of_dom, Hkept.
    destruct (dup !! j) as [i|] eqn:Hji.
    + specialize (Hrange j i Hji). split; [by intros _|]. intros _. right. by exists i.
    + split; [naive_solver|]. intros Hj. by left.
Qed.

(** C8: an index found in its own neighbour list is dropped before the
    inner loop runs, and the mapping the resolver returns has no entry whose
    key equals its value. *)
Theorem no_self_mapping n results :
  (∀ i (l : list (@item score)), i ∉ similar_indices_excluding i l)
  ∧ ∃ kept dup, deduplicate n results = Ok (kept, dup)
                ∧ ∀ j i, dup !! j = Some i → j ≠ i.
Proof.
  split; [intros i l; apply self_not_in_similar_indices|].
  destruct (deduplicate_pass_inv n results) as (kept & dup & Hrun & Hinv).
  exists kept, dup. split; [done|]. intros j i Hji.
  by destruct (inv_origin _ _ _ _ Hinv j i Hji).
Qed.

End SameDataset.

(** ** The cluster [{2, 5, 7}] *)

Section Cluster.
Context {score : Type}.
Implicit Types (results : list (list (@item score))) (st : dedup_state).

Lemma similar_listed results k l x :
  results !! k = Some l →
  x ∈ similar_indices_excluding (Z.of_nat k) l → listed results k x.
Proof.
  intros Hl (_ & s & Hin)%similar_indices_excluding_elem. by exists s, l.
Qed.

Lemma listed_similar results k l x :
  results !! k = Some l → listed results k x → x ≠ Z.of_nat k →
  x ∈ similar_indices_excluding (Z.of_nat k) l.
Proof.
  intros Hl (s & l' & Hl' & Hin) Hne. apply similar_indices_excluding_elem.
  split; [done|]. exists s. congruence.
Qed.

Lemma process_results_cluster n results :
  (7 < n)%nat →
  listed results 2 5 → listed results 2 7 →
  (∀ a : nat, a ≠ 2%nat → a ≠ 5%nat → a ≠ 7%nat →
     ¬ listed results a 2 ∧ ¬ listed results a 5 ∧ ¬ listed results a 7) →
  ∃ st, process_results 0 results (DedupState (set_range n) ∅) = Ok st
        ∧ cluster_inv (length results) st.
Proof.
  intros Hn H25 H27 Hothers. apply (process_results_invariant cluster_inv).
  - split; [|lia]. intros _. cbn. rewrite !elem_of_set_range. lia.
  - intros k l st _ [Hlow Hhigh] Hk. split.
    + intros Hle. apply Hlow. lia.
    + intros Hlt. destruct (decide (k = 2%nat)) as [->|Hne].
      * destruct Hlow as (H2 & _); [lia|]. by destruct Hk.
      * apply Hhigh. lia.
  - intros k l st st' Hl [Hlow Hhigh] Hk Hkept' Hdup'.
    assert (Hin : ∀ x, x ∈ deduplicated_indices st' ↔
              x ∈ deduplicated_indices st
              ∧ x ∉ similar_indices_excluding (Z.of_nat k) l).
    { intros x. by rewrite Hkept', elem_of_difference, elem_of_list_to_set. }
    destruct (decide (k < 2)%nat) as [Hk2|Hk2]; [|destruct (decide (k = 2%nat)) as [->|Hk3]].
    + destruct Hlow as (H2 & H5 & H7); [lia|].
      destruct (Hothers k) as (N2 & N5 & N7); [lia..|].
      split; [|lia]. intros _. rewrite !Hin.
      repeat split; try done; intros Hx; eapply similar_listed in Hx; eauto.
    + destruct Hlow as (H2 & H5 & H7); [lia|].
      split; [lia|]. intros _. rewrite !Hin, !Hdup'.
      assert (S5 : 5 ∈ similar_indices_excluding (Z.of_nat 2) l)
        by (by eapply listed_similar).
      assert (S7 : 7 ∈ similar_indices_excluding (Z.of_nat 2) l)
        by (by eapply listed_similar).
      rewrite !decide_True by done.
      repeat split; try done; try tauto.
      intros Hx. by apply self_not_in_similar_indices in Hx.
    + destruct Hhigh as (H2 & H5 & H7 & D5 & D7); [lia|].
      assert (k ≠ 5%nat) by (intros ->; by apply H5).
      assert (k ≠ 7%nat) by (intros ->; by apply H7).
      destruct (Hothers k) as (N2 & N5 & N7); [lia..|].
      split; [lia|]. intros _. rewrite !Hin, !Hdup'.
      rewrite !decide_False by tauto.
      repeat split; try done; try tauto.
      intros Hx; eapply similar_listed in Hx; eauto.
Qed.

(** C4: with at least eight documents, 5 and 7 in the neighbour list of 2,
    and no list of a document other than 2, 5 and 7 mentioning any of the
    three, the result keeps 2 and maps 5 and 7 to 2.  (Of the symmetric
    relation the claim assumes, the lists of 5 and 7 are not needed: both
    documents are skipped as sources.) *)
Theorem lowest_index_wins_2_5_7 n results :
  (7 < n)%nat →
  listed results 2 5 → listed results 2 7 →
  (∀ a : nat, a ≠ 2%nat → a ≠ 5%nat → a ≠ 7%nat →
     ¬ listed results a 2 ∧ ¬ listed results a 5 ∧ ¬ listed results a 7) →
  ∃ kept dup, deduplicate n results = Ok (kept, dup)
    ∧ 2 ∈ kept ∧ dup !! 5 = Some 2 ∧ dup !! 7 = Some 2
    ∧ (5 ∉ kept) ∧ (7 ∉ kept).
Proof.
  intros Hn H25 H27 Hothers.
  destruct (process_results_cluster n results Hn H25 H27 Hothers)
    as ([kept dup] & Hst & _ & Hhigh).
  exists kept, dup. split; [by apply deduplicate_of_process in Hst|].
  destruct H25 as (s & l & Hl & _). apply lookup_lt_Some in Hl.
  destruct Hhigh as (H2 & H5 & H7 & D5 & D7); [lia|]. done.
Qed.

End Cluster.

(** ** The logged pass *)

Section Traced.
Context {score : Type}.
Implicit Types (results : list (list (@item score))) (st : dedup_state)
  (log : list write_event).

(** Dropping the log gives back the plain loops. *)
Lemma mark_duplicates_traced_erase i (l : list Z) st log :
  match mark_duplicates_traced i l st log with
  | Ok r => mark_duplicates i l st = Ok r.1
  | Raise e => mark_duplicates i l st = Raise e
  end.
Proof.
  revert st log. induction l as [|x l IH]; intros st log; cbn; [done|].
  case_decide; [|apply IH].
  destruct (set_remove x (deduplicated_indices st)) as [kept|e]; cbn; [apply IH|done].
Qed.

Lemma process_results_traced_erase i results st log :
  match process_results_traced i results st log with
  | Ok r => process_results i results st = Ok r.1
  | Raise e => process_results i results st = Raise e
  end.
Proof.
  revert i st log. induction results as [|l results IH]; intros i st log; cbn; [done|].
  case_decide; [|apply IH].
  pose proof (mark_duplicates_traced_erase i (similar_indices_excluding i l) st log) as He.
  destruct (mark_duplicates_traced i _ st log) as [[st1 log1]|e]; rewrite He; cbn;
    [apply IH|done].
Qed.

Lemma deduplicate_traced_erase n results :
  match deduplicate_traced n results with
  | Ok r => deduplicate n results = Ok r.1
  | Raise e => deduplicate n results = Raise e
  end.
Proof.
  unfold deduplicate_traced, deduplicate.
  pose proof (process_results_traced_erase 0 results (DedupState (set_range n) ∅) [])
    as He.
  destruct (process_results_traced 0 results _ []) as [[st log]|e]; rewrite He; done.
Qed.

(** Such a property holds at the end of the inner loop, of the outer loop
    and of the whole logged pass, which all complete. *)
Lemma mark_duplicates_traced_invariant Q i (l : list Z) st log :
  preserved_by_writes Q →
  i ∉ l → i ∈ deduplicated_indices st → Q st log →
  ∃ st' log', mark_duplicates_traced i l st log = Ok (st', log')
              ∧ Q st' log' ∧ i ∈ deduplicated_indices st'.
Proof.
  intros HQ. revert st log. induction l as [|x l IH]; intros st log Hi Hin Hq.
  - by exists st, log.
  - apply not_elem_of_cons in Hi as [Hne Hi]. cbn [mark_duplicates_traced].
    case_decide as Hx; [|by apply IH].
    rewrite set_remove_member by done. cbn. apply IH; [done|cbn; set_solver|].
    by apply HQ.
Qed.

Lemma process_results_traced_invariant Q results i st log :
  preserved_by_writes Q → Q st log →
  ∃ st' log', process_results_traced i results st log = Ok (st', log') ∧ Q st' log'.
Proof.
  intros HQ. revert i st log.
  induction results as [|l results IH]; intros i st log Hq.
  - by exists st, log.
  - cbn [process_results_traced]. case_decide as Hi; [|by apply IH].
    destruct (mark_duplicates_traced_invariant Q i
                (similar_indices_excluding i l) st log HQ)
      as (st1 & log1 & Hrun & Hq1 & _); [apply self_not_in_similar_indices|done..|].
    rewrite Hrun. cbn. by apply IH.
Qed.

Lemma deduplicate_traced_invariant Q n results :
  preserved_by_writes Q → Q (DedupState (set_range n) ∅) [] →
  ∃ kept dup log, deduplicate n results = Ok (kept, dup)
                  ∧ deduplicate_traced n results = Ok (kept, dup, log)
                  ∧ Q (DedupState kept dup) log.
Proof.
  intros HQ H0.
  destruct (process_results_traced_invariant Q results 0
              (DedupState (set_range n) ∅) [] HQ H0) as ([kept dup] & log & Ht & Hq).
  pose proof (deduplicate_traced_erase n results) as He.
  unfold deduplicate_traced in *. rewrite Ht in *. cbn in He.
  by exists kept, dup, log.
Qed.

End Traced.

(** ** Results on the moments of assignment *)

Section Moments.
Context {score : Type}.
Implicit Types (results : list (list (@item score))) (st : dedup_state)
  (log : list write_event).

Lemma sources_canonical_preserved : preserved_by_writes sources_canonical.
Proof.
  intros i x st log [Hval Hall] Hi Hne Hx. split.
  - intros w [Hw| ->%list_elem_of_singleton]%elem_of_app; [by apply Hval|].
    cbn. set_solver.
  - intros j v. cbn. destruct (decide (x = j)) as [->|Hxj].
    + rewrite lookup_insert_eq. intros [= <-].
      eexists. split; [apply elem_of_app; right; apply list_elem_of_singleton; done|done].
    + rewrite lookup_insert_ne by done. intros Hjv.
      destruct (Hall j v Hjv) as (w & Hw & Hk & Hv).
      exists w. split; [apply elem_of_app; by left|done].
Qed.

Lemma trace_inv_preserved : preserved_by_writes trace_inv.
Proof.
  intros i x st log [Hfresh Heach Hord] Hi Hne Hx.
  pose proof (Hfresh x Hx) as Hxnone. split; cbn.
  - intros j Hj. rewrite lookup_insert_ne by set_solver. apply Hfresh. set_solver.
  - intros w [Hw| ->%list_elem_of_singleton]%elem_of_app; cbn.
    + destruct (Heach w Hw) as (Hb & Hk & Hsub & Hd).
      repeat split; [done|done|set_solver|].
      rewrite lookup_insert_ne; [done|]. intros ->. congruence.
    + repeat split; [done|set_solver|done|by rewrite lookup_insert_eq].
  - intros a b w1 w2 Hab Ha Hb.
    assert (Hlen : (b < length (log ++ [WriteEvent x i
                       (deduplicated_indices st ∖ {[x]})
                       (duplicate_to_original_mapping st)]))%nat)
      by (by eapply lookup_lt_Some).
    rewrite length_app in Hlen. cbn in Hlen.
    rewrite lookup_app_l in Ha by lia.
    destruct (decide (b < length log)%nat) as [Hb'|Hb'].
    + rewrite lookup_app_l in Hb by lia. exact (Hord a b w1 w2 Hab Ha Hb).
    + assert (b = length log) as -> by lia.
      rewrite list_lookup_middle in Hb by done. injection Hb as <-. cbn.
      destruct (Heach w1) as (_ & _ & Hsub & Hd); [by eapply list_elem_of_lookup_2|].
      split; [set_solver|done].
Qed.

(** C5: the pass run with its log returns what [deduplicate] returns, and
    the value of every assignment [duplicate_to_original_mapping[j] = i] is
    a member of the canonical set as it stands at that assignment; every
    entry of the returned mapping is such an assignment. *)
Theorem source_canonical_when_written n results :
  ∃ kept dup log,
    deduplicate n results = Ok (kept, dup)
    ∧ deduplicate_traced n results = Ok (kept, dup, log)
    ∧ (∀ w, w ∈ log → written_value w ∈ canonical_at_write w)
    ∧ (∀ j i, dup !! j = Some i →
         ∃ w, w ∈ log ∧ written_key w = j ∧ written_value w = i).
Proof.
  destruct (deduplicate_traced_invariant sources_canonical n results)
    as (kept & dup & log & Hrun & Ht & Hq); [apply sources_canonical_preserved| |].
  - split; [by intros w ?%elem_of_nil|]. intros j i. cbn. by rewrite lookup_empty.
  - exists kept, dup, log. split; [done|]. split; [done|]. exact Hq.
Qed.

(** C9: the pass run with its log returns what [deduplicate] returns;
    every assignment creates a key that was not mapped before and that has
    just left the canonical set; from one assignment to any later one the
    canonical set can only have shrunk and the earlier entry is still in
    place; and at the end the kept set is within every logged canonical
    set and every written entry is in the returned mapping unchanged. *)
Theorem canonical_shrinks_first_writer_wins n results :
  ∃ kept dup log,
    deduplicate n results = Ok (kept, dup)
    ∧ deduplicate_traced n results = Ok (kept, dup, log)
    ∧ (∀ w, w ∈ log →
         mapping_before_write w !! written_key w = None
         ∧ (written_key w ∉ canonical_at_write w)
         ∧ kept ⊆ canonical_at_write w
         ∧ canonical_at_write w ⊆ set_range n
         ∧ dup !! written_key w = Some (written_value w))
    ∧ (∀ (a b : nat) w1 w2, (a < b)%nat →
         log !! a = Some w1 → log !! b = Some w2 →
         canonical_at_write w2 ⊆ canonical_at_write w1
         ∧ mapping_before_write w2 !! written_key w1 = Some (written_value w1)).
Proof.
  destruct (deduplicate_traced_invariant
              (λ st log, trace_inv st log
                         ∧ deduplicated_indices st ⊆ set_range n
                         ∧ ∀ w, w ∈ log → canonical_at_write w ⊆ set_range n)
              n results)
    as (kept & dup & log & Hrun & Ht & [Hfresh Heach Hord] & _ & Hsub).
  - intros i x st log (Hinv & Hst & Hsub) Hi Hne Hx.
    split; [by apply trace_inv_preserved|]. cbn. split; [set_solver|].
    intros w [Hw| ->%list_elem_of_singleton]%elem_of_app; [by apply Hsub|]. cbn.
    set_solver.
  - split; [|split; [done|by intros w ?%elem_of_nil]]. split; cbn.
    + intros j _. by rewrite lookup_empty.
    + by intros w ?%elem_of_nil.
    + intros a b w1 w2 _. by rewrite lookup_nil.
  - exists kept, dup, log. split; [done|]. split; [done|]. split; [|exact Hord].
    intros w Hw. destruct (Heach w Hw) as (Hb & Hk & Hs & Hd). cbn in *.
    repeat split; try done. by apply Hsub.
Qed.

End Moments.

(** ** Results on the cross-dataset resolver *)

Section AcrossDatasets.
Context {score : Type} `{Score score}.
Implicit Types (results : list (list (@item score))) (threshold : score).

Lemma similar_indices_above_nonempty threshold (l : list (@item score)) :
  similar_indices_above threshold l ≠ [] ↔
  ∃ j s, (j, s) ∈ l ∧ score_ge s threshold = true.
Proof.
  unfold similar_indices_above. split.
  - destruct (filter _ l) as [|[j s] l'] eqn:Hf; [done|]. intros _.
    assert (Hin : (j, s) ∈ filter (λ it : item, score_ge it.2 threshold = true) l)
      by (rewrite Hf; left).
    apply list_elem_of_filter in Hin as [Hs Hin]. by exists j, s.
  - intros (j & s & Hin & Hs).
    assert (Hf : (j, s) ∈ filter (λ it : item, score_ge it.2 threshold = true) l)
      by (by apply list_elem_of_filter).
    destruct (filter _ l); [by apply elem_of_nil in Hf|done].
Qed.

Lemma similar_indices_above_first threshold (pre post : list (@item score)) j s :
  Forall (λ it : item, score_ge it.2 threshold = false) pre →
  score_ge s threshold = true →
  similar_indices_above threshold (pre ++ (j, s) :: post)
  = j :: similar_indices_above threshold post.
Proof.
  intros Hpre Hs. unfold similar_indices_above. rewrite filter_app.
  assert (filter (λ it : item, score_ge it.2 threshold = true) pre = []) as ->.
  { induction Hpre as [|it pre Hit _ IH]; [done|].
    rewrite filter_cons_False; [done|]. by rewrite Hit. }
  rewrite app_nil_l, filter_cons_True by done. done.
Qed.

Lemma process_across_suffix threshold (post pre : list (list (@item score))) st :
  across_inv threshold pre st →
  ∃ st', process_across (Z.of_nat (length pre)) post threshold st = Ok st'
         ∧ across_inv threshold (pre ++ post) st'.
Proof.
  revert pre st. induction post as [|l post IH]; intros pre st Hinv.
  - exists st. by rewrite app_nil_r.
  - assert (Hnext : Z.of_nat (length pre) + 1 = Z.of_nat (length (pre ++ [l]))).
    { rewrite length_app. cbn. lia. }
    replace (pre ++ l :: post) with ((pre ++ [l]) ++ post) by (by rewrite <- app_assoc).
    destruct Hinv as [Hlisted Hrange]. cbn [process_across]. cbv zeta.
    destruct (similar_indices_above threshold l) as [|j sim] eqn:Hsim.
    + rewrite Hnext. apply IH. split.
      * intros a l' Ha. destruct (decide (a < length pre)%nat) as [Hlt|Hge].
        -- rewrite lookup_app_l in Ha by done. by apply Hlisted.
        -- apply lookup_lt_Some in Ha as Hlen. rewrite length_app in Hlen. cbn in Hlen.
           assert (a = length pre) as -> by lia.
           rewrite list_lookup_middle in Ha by done. injection Ha as <-.
           rewrite Hsim. split.
           ++ split; [|done]. intros Hin. specialize (Hrange _ (or_introl Hin)). lia.
           ++ cbn. apply eq_None_not_Some. intros Hsome.
              specialize (Hrange _ (or_intror Hsome)). lia.
      * intros x Hx. specialize (Hrange x Hx). rewrite length_app. cbn. lia.
    + cbn. rewrite Hnext. apply IH. split; cbn.
      * intros a l' Ha. destruct (decide (a < length pre)%nat) as [Hlt|Hge].
        -- rewrite lookup_app_l in Ha by done.
           rewrite lookup_insert_ne by lia. rewrite elem_of_app, list_elem_of_singleton.
           destruct (Hlisted a l' Ha) as [Hiff Hlook]. split; [|done].
           rewrite <- Hiff. split; [|by left]. intros [?|?]; [done|lia].
        -- apply lookup_lt_Some in Ha as Hlen. rewrite length_app in Hlen. cbn in Hlen.
           assert (a = length pre) as -> by lia.
           rewrite list_lookup_middle in Ha by done. injection Ha as <-.
           rewrite Hsim, lookup_insert_eq. split; [|done].
           split; [done|]. intros _. apply elem_of_app. right. by left.
      * intros x. rewrite elem_of_app, list_elem_of_singleton, length_app. cbn.
        destruct (decide (x = Z.of_nat (length pre))) as [->|Hne]; [lia|].
        rewrite lookup_insert_ne by done. intros [[Hx|Hx]|Hx]; [|done|].
        -- specialize (Hrange x (or_introl Hx)). lia.
        -- specialize (Hrange x (or_intror Hx)). lia.
Qed.

Lemma deduplicate_across_datasets_inv results threshold :
  ∃ st, deduplicate_across_datasets results threshold = Ok st
        ∧ across_inv threshold results st.
Proof.
  apply (process_across_suffix threshold results [] ([], ∅)). split; cbn.
  - intros a l. by rewrite lookup_nil.
  - intros x [Hx|Hx]; [by apply elem_of_nil in Hx|].
    rewrite lookup_empty in Hx. by destruct Hx.
Qed.

(** C6: the resolver returns a list and a mapping such that, for every
    query index with its candidate list: the index is in the list exactly when one of its
    candidates has a score at or above the threshold, a candidate whose
    score equals the threshold counts, and the index is mapped to the first
    such candidate in the order of the candidate list. *)
Theorem overlapping_iff_first_at_or_above results threshold :
  ∃ overlapping reference_of,
    deduplicate_across_datasets results threshold = Ok (overlapping, reference_of)
    ∧ ∀ (a : nat) l, results !! a = Some l →
        (Z.of_nat a ∈ overlapping ↔ ∃ j s, (j, s) ∈ l ∧ score_ge s threshold = true)
        ∧ (∀ j s, (j, s) ∈ l → score_eqb s threshold = true →
             Z.of_nat a ∈ overlapping)
        ∧ (∀ pre j s post, l = pre ++ (j, s) :: post →
             Forall (λ it : item, score_ge it.2 threshold = false) pre →
             score_ge s threshold = true →
             reference_of !! Z.of_nat a = Some j).
Proof.
  destruct (deduplicate_across_datasets_inv results threshold)
    as ([overlapping reference_of] & Hrun & Hinv).
  exists overlapping, reference_of. split; [done|]. intros a l Hl.
  destruct (across_listed _ _ _ Hinv a l Hl) as [Hiff Hlook]. cbn in Hiff, Hlook.
  rewrite similar_indices_above_nonempty in Hiff. split; [done|]. split.
  - intros j s Hin Heq. apply Hiff. exists j, s. split; [done|]. by apply score_eqb_ge.
  - intros pre j s post -> Hpre Hs. rewrite Hlook.
    by rewrite similar_indices_above_first.
Qed.

(** Both passes complete normally on every family of lists. *)
Lemma resolvers_always_complete n results threshold :
  completes (deduplicate n results) = true
  ∧ completes (deduplicate_across_datasets results threshold) = true.
Proof.
  split.
  - unfold deduplicate.
    destruct (process_results_pass_inv n results) as (st & -> & _). done.
  - destruct (deduplicate_across_datasets_inv results threshold) as (st & -> & _). done.
Qed.

End AcrossDatasets.

(** ** The results at sample inputs *)

(* Case analysis on membership in a list given by its elements. *)
Ltac inv_elem_of H :=
  repeat first
    [ apply elem_of_nil in H; destruct H
    | apply elem_of_cons in H as [H|H]; [injection H as ? ?|] ].

Lemma cat_results_symmetric : symmetric cat_results.
Proof.
  intros a b (s & l & Hl & Hin). unfold cat_results in Hl.
  destruct a as [|[|[|a]]]; cbn in Hl; [injection Hl as <-..|by destruct a];
    inv_elem_of Hin;
    repeat match goal with
      | E : Z.of_nat b = _ |- _ =>
          first [ assert (b = 0%nat) as -> by lia
                | assert (b = 1%nat) as -> by lia
                | assert (b = 2%nat) as -> by lia ]; clear E
      end;
    (eexists _, _; split; [reflexivity|]; cbn; repeat first [left; reflexivity | right]).
Qed.

Lemma cluster_results_isolated (a : nat) :
  a ≠ 2%nat → a ≠ 5%nat → a ≠ 7%nat →
  ¬ listed cluster_results a 2 ∧ ¬ listed cluster_results a 5
  ∧ ¬ listed cluster_results a 7.
Proof.
  intros N2 N5 N7.
  repeat split; intros (s & l & Hl & Hin); unfold cluster_results in Hl;
    do 8 (destruct a as [|a]; [try lia; cbn in Hl; injection Hl as <-;
                                 inv_elem_of Hin; lia|]);
    by destruct a.
Qed.

(** The scenario of two near-identical sentences and a third one. *)
Example deduplicate_end_to_end :
  deduplicate 3 cat_results
  = Ok ({[0; 2]}, {[1 := 0]}).
Proof. vm_compute. reflexivity. Qed.

(** The log of the pass on the asymmetric input: 0 takes 1, then 2 takes 0. *)
Example deduplicate_traced_asymmetric :
  deduplicate_traced 3 asymmetric_results
  = Ok ({[2]}, {[1 := 0; 0 := 2]},
        [WriteEvent 1 0 {[0; 2]} ∅; WriteEvent 0 2 {[2]} {[1 := 0]}]).
Proof. vm_compute. reflexivity. Qed.

(** At exactly the threshold the candidate counts; just below it does not. *)
Example threshold_is_inclusive :
  deduplicate_across_datasets boundary_results (99#100) = Ok ([0], {[0 := 3]}).
Proof. vm_compute. reflexivity. Qed.

(** C1, counterexample: document 2 lists document 0, which does not list it
    back; 0 has taken 1 by then, and is itself removed by 2. *)
Lemma representative_removed_later :
  ∃ kept dup, deduplicate 3 asymmetric_results = Ok (kept, dup)
              ∧ dup !! 1 = Some 0 ∧ 0 ∉ kept.
Proof.
  exists {[2]}, {[1 := 0; 0 := 2]}.
  split; [vm_compute; reflexivity|]. split; [vm_compute; reflexivity|].
  set_solver.
Qed.

Lemma representative_valid_if_symmetric_witness :
  symmetric cat_results
  ∧ ∃ kept dup, deduplicate 3 cat_results = Ok (kept, dup)
                ∧ ∀ j i, dup !! j = Some i → i ∈ kept.
Proof.
  split; [exact cat_results_symmetric|].
  exact (representative_valid_if_symmetric 3 cat_results cat_results_symmetric).
Defined.

Lemma cat_results_thresholded : thresholded (99#100) cat_results.
Proof. unfold thresholded, cat_results. repeat constructor. Qed.

Lemma lowest_index_wins_2_5_7_witness :
  deduplicate 8 cluster_results = Ok ({[0; 1; 2; 3; 4; 6]}, {[5 := 2; 7 := 2]})
  ∧ ∃ kept dup, deduplicate 8 cluster_results = Ok (kept, dup)
      ∧ 2 ∈ kept ∧ dup !! 5 = Some 2 ∧ dup !! 7 = Some 2
      ∧ (5 ∉ kept) ∧ (7 ∉ kept).
Proof.
  split; [vm_compute; reflexivity|].
  apply (lowest_index_wins_2_5_7 8 cluster_results).
  - lia.
  - exists (99#100). eexists. split; [reflexivity|]. right; left.
  - exists (99#100). eexists. split; [reflexivity|]. right; right; left.
  - exact cluster_results_isolated.
Defined.

(** C10: the cross-dataset resolver has no test of a candidate's index
    against the query index.  With one collection as both reference and
    query, every query index is overlapping and mapped to itself; the
    same-dataset resolver on these lists drops the self-pairs and removes
    nothing. *)
Theorem across_datasets_allows_self_reference :
  ∃ (results : list (list (Z * Q))) (threshold : Q) overlapping reference_of (i : Z),
    deduplicate_across_datasets results threshold = Ok (overlapping, reference_of)
    ∧ i ∈ overlapping ∧ reference_of !! i = Some i
    ∧ neighbour results (Z.to_nat i) i (1#1)
    ∧ deduplicate (length results) results = Ok (set_range (length results), ∅).
Proof.
  exists self_results, (99#100), [0; 1], {[0 := 0; 1 := 1]}, 0.
  split; [vm_compute; reflexivity|]. split; [left|].
  split; [vm_compute; reflexivity|].
  split; [eexists; split; [reflexivity|left]|vm_compute; reflexivity].
Qed.

(** ** Further properties of the same-dataset resolver *)

Section SameDatasetMore.
Context {score : Type}.
Implicit Types (results : list (list (@item score))) (st : dedup_state).

Lemma size_set_range (n : nat) : size (set_range n) = n.
Proof.
  unfold set_range. rewrite size_list_to_set by apply NoDup_seqZ.
  rewrite length_seqZ. lia.
Qed.

Lemma pass_inv_partition n results k st :
  pass_inv n results k st →
  deduplicated_indices st ## dom (duplicate_to_original_mapping st)
  ∧ deduplicated_indices st ∪ dom (duplicate_to_original_mapping st) = set_range n.
Proof.
  intros [Hkept Hrange _ _]. split.
  - intros j Hj [i Hi]%elem_of_dom. apply Hkept in Hj. naive_solver.
  - apply set_eq. intros j.
    rewrite elem_of_union, elem_of_set_range, elem_of_dom, Hkept.
    destruct (duplicate_to_original_mapping st !! j) as [i|] eqn:Hji.
    + specialize (Hrange j i Hji). split; [by intros _|]. intros _. right. by exists i.
    + split; [naive_solver|]. intros Hj. by left.
Qed.

(** X1: the number of kept indices and the number of entries of the mapping
    add up to the document count. *)
Theorem kept_plus_removed_is_n n results :
  ∃ kept dup, deduplicate n results = Ok (kept, dup)
              ∧ (size kept + size dup)%nat = n.
Proof.
  destruct (deduplicate_pass_inv n results) as (kept & dup & Hrun & Hinv).
  exists kept, dup. split; [done|].
  destruct (pass_inv_partition _ _ _ _ Hinv) as [Hdisj Hunion]. cbn in *.
  rewrite <- (size_dom (D:=gset Z)), <- size_union by done.
  by rewrite Hunion, size_set_range.
Qed.

(** The invariant of the pass together with the range of the values. *)
Lemma deduplicate_values_in_range n results :
  ∃ kept dup, deduplicate n results = Ok (kept, dup)
    ∧ pass_inv n results (length results) (DedupState kept dup)
    ∧ ∀ j i, dup !! j = Some i → 0 ≤ i < Z.of_nat n.
Proof.
  destruct (process_results_invariant
              (λ k st, pass_inv n results k st
                       ∧ ∀ j i, duplicate_to_original_mapping st !! j = Some i →
                                0 ≤ i < Z.of_nat n)
              results (DedupState (set_range n) ∅))
    as ([kept dup] & Hst & Hinv & Hval).
  - split; [apply pass_inv_init|]. intros j i. cbn. by rewrite lookup_empty.
  - intros k l st _ [Hinv Hval] Hk. split; [by apply pass_inv_skip|done].
  - intros k l st st' Hl [Hinv Hval] Hk Hkept' Hdup'.
    split; [by eapply pass_inv_mark|].
    intros j i. rewrite Hdup'. case_decide; [|by apply Hval].
    intros [= <-]. by apply (inv_kept _ _ _ _ Hinv) in Hk as [? _].
  - exists kept, dup. split; [by apply deduplicate_of_process in Hst|done].
Qed.

(** X2: every value of the returned mapping is a document index that had a
    neighbour list of its own: [0 <= i < n] and [i < len(results)], whatever
    the candidate indices are. *)
Theorem representative_in_range n results :
  ∃ kept dup, deduplicate n results = Ok (kept, dup)
    ∧ ∀ j i, dup !! j = Some i →
        0 ≤ i < Z.of_nat n ∧ i < Z.of_nat (length results).
Proof.
  destruct (deduplicate_values_in_range n results)
    as (kept & dup & Hrun & Hinv & Hval).
  exists kept, dup. split; [done|].
  intros j i Hji. split; [exact (Hval j i Hji)|].
  destruct (inv_origin _ _ _ _ Hinv j i Hji) as (_ & a & s & Ha & -> & _). lia.
Qed.

(** X3: no kept document lists another kept document: whatever a kept
    document [a] has in its list, other than itself, has been removed. *)
Theorem kept_lists_no_kept n results :
  ∃ kept dup, deduplicate n results = Ok (kept, dup)
    ∧ ∀ (a : nat) j, Z.of_nat a ∈ kept → listed results a j →
        j ≠ Z.of_nat a → j ∉ kept.
Proof.
  destruct (deduplicate_pass_inv n results) as (kept & dup & Hrun & Hinv).
  exists kept, dup. split; [done|]. intros a j Ha Hlisted Hne.
  refine (inv_done _ _ _ _ Hinv a j _ Ha Hlisted Hne).
  destruct Hlisted as (s & l & Hl & _). by eapply lookup_lt_Some.
Qed.

(** X4: a representative that was itself removed later maps to a larger
    index: along the mapping, from the second step on, indices strictly
    increase, so following it never cycles. *)
Theorem representative_chain_increases n results :
  ∃ kept dup, deduplicate n results = Ok (kept, dup)
    ∧ ∀ j i i', dup !! j = Some i → dup !! i = Some i' → i < i'.
Proof.
  destruct (process_results_invariant
              (λ k st, pass_inv n results k st
                       ∧ ∀ j i i', duplicate_to_original_mapping st !! j = Some i →
                           duplicate_to_original_mapping st !! i = Some i' → i < i')
              results (DedupState (set_range n) ∅))
    as ([kept dup] & Hst & Hinv & Hchain).
  - split; [apply pass_inv_init|]. intros j i i'. cbn. by rewrite lookup_empty.
  - intros k l st _ [Hinv Hchain] Hk. split; [by apply pass_inv_skip|done].
  - intros k l st st' Hl [Hinv Hchain] Hk Hkept' Hdup'.
    split; [by eapply pass_inv_mark|].
    assert (Hknone : duplicate_to_original_mapping st !! Z.of_nat k = None)
      by (by apply (inv_kept _ _ _ _ Hinv) in Hk as [_ ?]).
    intros j i i'. rewrite !Hdup'.
    destruct (decide (j ∈ deduplicated_indices st
                      ∧ j ∈ similar_indices_excluding (Z.of_nat k) l)) as [Hj|Hj].
    + intros [= <-]. rewrite decide_False, Hknone; [done|].
      intros [_ Hself]. by apply self_not_in_similar_indices in Hself.
    + intros Hji. case_decide as Hi; [|by apply (Hchain j)].
      intros [= <-].
      destruct (inv_origin _ _ _ _ Hinv j i Hji) as (_ & a & s & Ha & -> & _). lia.
  - exists kept, dup. split; [by apply deduplicate_of_process in Hst|done].
Qed.

(** X5: when the neighbour relation is symmetric, every removed document
    maps to a smaller index. *)
Theorem representative_is_lower_if_symmetric n results :
  symmetric results →
  ∃ kept dup, deduplicate n results = Ok (kept, dup)
              ∧ ∀ j i, dup !! j = Some i → i < j.
Proof.
  intros Hsym.
  destruct (process_results_invariant
              (λ k st, pass_inv n results k st
                       ∧ ∀ j i, duplicate_to_original_mapping st !! j = Some i → i < j)
              results (DedupState (set_range n) ∅))
    as ([kept dup] & Hst & Hinv & Hlow).
  - split; [apply pass_inv_init|]. intros j i. cbn. by rewrite lookup_empty.
  - intros k l st _ [Hinv Hlow] Hk. split; [by apply pass_inv_skip|done].
  - intros k l st st' Hl [Hinv Hlow] Hk Hkept' Hdup'.
    split; [by eapply pass_inv_mark|].
    intros j i. rewrite Hdup'. case_decide as Hc; [|by apply Hlow].
    intros [= <-]. destruct Hc as [Hj Hsim].
    apply similar_indices_excluding_elem in Hsim as (Hne & s & Hin).
    destruct (decide (Z.of_nat k < j)) as [|Hge]; [done|]. exfalso.
    pose proof (proj1 (inv_kept _ _ _ _ Hinv j) Hj) as [Hrange _].
    assert (Hjb : j = Z.of_nat (Z.to_nat j)) by lia.
    assert (Hback : listed results (Z.to_nat j) (Z.of_nat k)).
    { apply Hsym. rewrite <- Hjb. by exists s, l. }
    refine (inv_done _ _ _ _ Hinv (Z.to_nat j) (Z.of_nat k) _ _ Hback _ Hk).
    + lia.
    + by rewrite <- Hjb.
    + lia.
  - exists kept, dup. split; [by apply deduplicate_of_process in Hst|done].
Qed.

End SameDatasetMore.

Section OutOfRange.
Context {score : Type}.
Implicit Types (results : list (list (@item score))) (st : dedup_state).

(** X6: the resolver removes nothing exactly when no document lists an
    in-range index other than its own. *)
Theorem nothing_removed_iff n results :
  deduplicate n results = Ok (set_range n, ∅) ↔
  ∀ (a : nat) j, (a < n)%nat → listed results a j →
    j = Z.of_nat a ∨ ¬ (0 ≤ j < Z.of_nat n).
Proof.
  split.
  - intros Hrun a j Ha Hlisted.
    destruct (deduplicate_pass_inv n results) as (kept & dup & Hrun' & Hinv).
    rewrite Hrun in Hrun'. injection Hrun' as <- <-.
    destruct (decide (j = Z.of_nat a)) as [|Hne]; [by left|]. right.
    rewrite <- elem_of_set_range.
    refine (inv_done _ _ _ _ Hinv a j _ _ Hlisted Hne).
    + destruct Hlisted as (s & l & Hl & _). by eapply lookup_lt_Some.
    + cbn. apply elem_of_set_range. lia.
  - intros Hself.
    destruct (process_results_invariant
                (λ _ st, st = DedupState (set_range n) ∅)
                results (DedupState (set_range n) ∅)) as (st & Hst & ->); [done|done| |].
    + intros k l st [kept' dup'] Hl -> Hk Hkept' Hdup'. cbn in *.
      apply elem_of_set_range in Hk.
      assert (Hnone : ∀ x, x ∈ similar_indices_excluding (Z.of_nat k) l →
                           x ∉ set_range n).
      { intros x Hx. rewrite elem_of_set_range.
        pose proof Hx as (Hne & _)%similar_indices_excluding_elem.
        eapply similar_listed in Hx; [|done].
        destruct (Hself k x) as [?|?]; [lia|done..]. }
      f_equal.
      * rewrite Hkept'. apply set_eq. intros x.
        rewrite elem_of_difference, elem_of_list_to_set. naive_solver.
      * apply map_eq. intros x. rewrite Hdup'.
        rewrite decide_False; [done|]. naive_solver.
    + by apply deduplicate_of_process in Hst.
Qed.

Lemma similar_indices_excluding_filter (P : Z → Prop) `{∀ x, Decision (P x)}
    (i : Z) (l : list (@item score)) :
  similar_indices_excluding i (filter (λ it : item, P it.1) l)
  = filter P (similar_indices_excluding i l).
Proof.
  unfold similar_indices_excluding. induction l as [|[j s] l IH]; [done|].
  rewrite !(filter_cons _ (j, s)). cbn [fst].
  destruct (decide (P j)) as [Hp|Hp]; destruct (decide (j ≠ i)) as [Hi|Hi];
    rewrite ?(filter_cons _ (j, s)); cbn [fst];
    rewrite ?(decide_True (P:=j ≠ i)), ?(decide_False (P:=j ≠ i)) by done;
    cbn; rewrite ?filter_cons, ?(decide_True (P:=P j)), ?(decide_False (P:=P j)) by done;
    first [exact IH | f_equal; exact IH].
Qed.

(** An index that is not canonical has no effect on the inner loop. *)
Lemma mark_duplicates_filter (P : Z → Prop) `{∀ x, Decision (P x)} i (l : list Z) st :
  (∀ x, x ∈ deduplicated_indices st → P x) →
  mark_duplicates i (filter P l) st = mark_duplicates i l st.
Proof.
  revert st. induction l as [|x l IH]; intros st Hst; [done|].
  destruct (decide (P x)) as [Hp|Hp].
  - rewrite filter_cons_True by done. cbn [mark_duplicates].
    case_decide as Hx; [|by apply IH].
    rewrite set_remove_member by done. cbn. apply IH. cbn. set_solver.
  - rewrite filter_cons_False by done. cbn [mark_duplicates].
    rewrite decide_False by naive_solver. by apply IH.
Qed.

Lemma process_results_filter (P : Z → Prop) `{∀ x, Decision (P x)} i results st :
  (∀ x, x ∈ deduplicated_indices st → P x) →
  process_results i (map (filter (λ it : item, P it.1)) results) st
  = process_results i results st.
Proof.
  revert i st. induction results as [|l results IH]; intros i st Hst; [done|].
  cbn [map process_results]. case_decide as Hi; [|by apply IH].
  rewrite similar_indices_excluding_filter, mark_duplicates_filter by done.
  destruct (mark_duplicates_spec i (similar_indices_excluding i l) st)
    as (st' & -> & Hkept & _). cbn. apply IH. rewrite Hkept. set_solver.
Qed.

(** X7: candidate indices outside [0, n) have no effect: the resolver
    returns the same on the lists with those entries taken out. *)
Theorem out_of_range_candidates_ignored n results :
  deduplicate n (in_range_only n results) = deduplicate n results.
Proof.
  unfold deduplicate, in_range_only.
  pose proof (process_results_filter (λ j, 0 ≤ j < Z.of_nat n) 0 results
                (DedupState (set_range n) ∅)) as Hf.
  cbn beta in Hf. rewrite Hf; [done|].
  intros x. cbn. by rewrite elem_of_set_range.
Qed.

End OutOfRange.

(** ** Further properties of the cross-dataset resolver *)

Section AcrossDatasetsMore.
Context {score : Type} `{Score score}.
Implicit Types (results : list (list (@item score))) (threshold : score).

(** An invariant [P k st] of "[k] candidate lists have been consumed" is
    carried through the whole pass, which completes. *)
Lemma process_across_invariant (P : nat → list Z * gmap Z Z → Prop)
    results threshold :
  P 0%nat ([], ∅) →
  (∀ k l st, results !! k = Some l →
     similar_indices_above threshold l = [] → P k st → P (S k) st) →
  (∀ k l j sim st, results !! k = Some l →
     similar_indices_above threshold l = j :: sim → P k st →
     P (S k) (st.1 ++ [Z.of_nat k], <[Z.of_nat k := j]> st.2)) →
  ∃ st, deduplicate_across_datasets results threshold = Ok st
        ∧ P (length results) st.
Proof.
  intros H0 Hskip Hhit. unfold deduplicate_across_datasets.
  enough (Hgen : ∀ post pre st, results = pre ++ post → P (length pre) st →
            ∃ st', process_across (Z.of_nat (length pre)) post threshold st = Ok st'
                   ∧ P (length results) st')
    by (by apply (Hgen results [] ([], ∅))).
  induction post as [|l post IH]; intros pre st Hres HP.
  - exists st. split; [done|]. subst results. by rewrite app_nil_r.
  - assert (Hl : results !! length pre = Some l).
    { subst results. by rewrite list_lookup_middle. }
    assert (Hnext : Z.of_nat (length pre) + 1 = Z.of_nat (length (pre ++ [l]))).
    { rewrite length_app. cbn. lia. }
    assert (Hlen : S (length pre) = length (pre ++ [l])).
    { rewrite length_app. cbn. lia. }
    assert (Hres' : results = (pre ++ [l]) ++ post).
    { by rewrite <- app_assoc. }
    cbn [process_across]. cbv zeta.
    destruct (similar_indices_above threshold l) as [|j sim] eqn:Hsim.
    + rewrite Hnext. apply IH; [done|]. rewrite <- Hlen. by eapply Hskip.
    + cbn. rewrite Hnext. apply IH; [done|]. rewrite <- Hlen. by eapply Hhit.
Qed.

Lemma similar_indices_above_elem threshold (l : list (@item score)) j :
  j ∈ similar_indices_above threshold l ↔
  ∃ s, (j, s) ∈ l ∧ score_ge s threshold = true.
Proof.
  unfold similar_indices_above. rewrite list_elem_of_fmap. split.
  - intros ([j' s] & -> & [Hs Hin]%list_elem_of_filter). by exists s.
  - intros (s & Hin & Hs). exists (j, s). split; [done|].
    by apply list_elem_of_filter.
Qed.

Lemma similar_indices_above_all threshold (l : list (@item score)) :
  Forall (λ it : item, score_ge it.2 threshold = true) l →
  similar_indices_above threshold l = l.*1.
Proof.
  intros Hall. unfold similar_indices_above. f_equal.
  induction Hall as [|it l Hit _ IH]; [done|].
  rewrite filter_cons_True by done. by rewrite IH.
Qed.

(** The shape of what the pass has built after [k] lists. *)
Lemma deduplicate_across_datasets_shape results threshold :
  ∃ st, deduplicate_across_datasets results threshold = Ok st
    ∧ StronglySorted Z.lt st.1
    ∧ (∀ x, x ∈ st.1 → 0 ≤ x < Z.of_nat (length results))
    ∧ dom st.2 = list_to_set st.1
    ∧ size st.2 = length st.1.
Proof.
  apply (process_across_invariant
           (λ k st, StronglySorted Z.lt st.1
                    ∧ (∀ x, x ∈ st.1 → 0 ≤ x < Z.of_nat k)
                    ∧ dom st.2 = list_to_set st.1
                    ∧ size st.2 = length st.1)).
  - cbn. split; [constructor|]. split; [by intros x ?%elem_of_nil|].
    split; [by rewrite dom_empty_L|]. by rewrite map_size_empty.
  - intros k l st _ _ (Hs & Hr & Hd & Hn). split; [done|].
    split; [|done]. intros x Hx. specialize (Hr x Hx). lia.
  - intros k l j sim [ov ref] _ _ (Hs & Hr & Hd & Hn). cbn in *.
    assert (Hfresh : ref !! Z.of_nat k = None).
    { apply not_elem_of_dom. rewrite Hd, elem_of_list_to_set.
      intros Hk. specialize (Hr _ Hk). lia. }
    split; [|split; [|split]].
    + apply StronglySorted_app_2; [|done|repeat constructor].
      intros x1 x2 Hx1 ->%list_elem_of_singleton. specialize (Hr x1 Hx1). lia.
    + intros x [Hx| ->%list_elem_of_singleton]%elem_of_app; [|lia].
      specialize (Hr x Hx). lia.
    + rewrite dom_insert_L, list_to_set_app_L, Hd. cbn. set_solver.
    + rewrite map_size_insert_None by done. rewrite length_app, Hn. cbn. lia.
Qed.

(** X8: the returned list of overlapping query indices is strictly
    increasing, so without repetition, and holds positions of [results]
    only. *)
Theorem overlapping_strictly_increasing results threshold :
  ∃ overlapping reference_of,
    deduplicate_across_datasets results threshold = Ok (overlapping, reference_of)
    ∧ StronglySorted Z.lt overlapping
    ∧ ∀ x, x ∈ overlapping → 0 ≤ x < Z.of_nat (length results).
Proof.
  destruct (deduplicate_across_datasets_shape results threshold)
    as ([ov ref] & Hrun & Hs & Hr & _).
  by exists ov, ref.
Qed.

(** X9: the keys of the returned mapping are exactly the members of the
    returned list, and the mapping has as many entries as the list has
    elements. *)
Theorem reference_keys_are_overlapping results threshold :
  ∃ overlapping reference_of,
    deduplicate_across_datasets results threshold = Ok (overlapping, reference_of)
    ∧ dom reference_of = list_to_set overlapping
    ∧ size reference_of = length overlapping.
Proof.
  destruct (deduplicate_across_datasets_shape results threshold)
    as ([ov ref] & Hrun & _ & _ & Hd & Hn).
  by exists ov, ref.
Qed.

Lemma across_reference_candidate results threshold st i j :
  across_inv threshold results st → st.2 !! i = Some j →
  ∃ (a : nat) s, i = Z.of_nat a ∧ neighbour results a j s
                 ∧ score_ge s threshold = true.
Proof.
  intros Hinv Hij.
  pose proof (across_range _ _ _ Hinv i (or_intror (mk_is_Some _ _ Hij))) as Hi.
  destruct (lookup_lt_is_Some_2 results (Z.to_nat i)) as [l Hl]; [lia|].
  destruct (across_listed _ _ _ Hinv _ l Hl) as [_ Hlook].
  replace (Z.of_nat (Z.to_nat i)) with i in Hlook by lia.
  rewrite Hij in Hlook. symmetry in Hlook.
  apply head_Some_elem_of, similar_indices_above_elem in Hlook as (s & Hin & Hs).
  exists (Z.to_nat i), s. split; [lia|]. split; [by exists l|done].
Qed.

(** X10: every entry [reference_of[i] = j] is for a query index [i] that has
    a candidate list, and [j] is an entry of that list with a score at or
    above the threshold. *)
Theorem reference_is_candidate_at_or_above results threshold :
  ∃ overlapping reference_of,
    deduplicate_across_datasets results threshold = Ok (overlapping, reference_of)
    ∧ ∀ i j, reference_of !! i = Some j →
        ∃ (a : nat) s, i = Z.of_nat a ∧ neighbour results a j s
                       ∧ score_ge s threshold = true.
Proof.
  destruct (deduplicate_across_datasets_inv results threshold)
    as ([ov ref] & Hrun & Hinv).
  exists ov, ref. split; [done|]. intros i j Hij.
  by apply (across_reference_candidate results threshold (ov, ref)).
Qed.

(** X11: the resolver returns the empty list and the empty mapping exactly
    when no candidate of any query has a score at or above the threshold;
    in particular on no queries and on empty candidate lists. *)
Theorem no_overlap_iff results threshold :
  deduplicate_across_datasets results threshold = Ok ([], ∅) ↔
  ∀ (a : nat) j s, neighbour results a j s → score_ge s threshold = false.
Proof.
  destruct (deduplicate_across_datasets_inv results threshold)
    as ([ov ref] & Hrun & Hinv).
  rewrite Hrun. split.
  - intros [= -> ->] a j s (l & Hl & Hin).
    destruct (across_listed _ _ _ Hinv a l Hl) as [Hiff _]. cbn in Hiff.
    destruct (score_ge s threshold) eqn:Hs; [|done]. exfalso.
    eapply elem_of_nil, Hiff, similar_indices_above_nonempty. by exists j, s.
  - intros Hnone.
    assert (Hempty : ∀ (a : nat) l, results !! a = Some l →
              similar_indices_above threshold l = []).
    { intros a l Hl.
      destruct (similar_indices_above threshold l) as [|j sim] eqn:Hsim; [done|].
      assert (Hj : j ∈ similar_indices_above threshold l) by (rewrite Hsim; left).
      apply similar_indices_above_elem in Hj as (s & Hin & Hs).
      rewrite (Hnone a j s) in Hs; [done|by exists l]. }
    assert (Hin : ∀ x, 0 ≤ x < Z.of_nat (length results) →
              (x ∉ ov) ∧ ref !! x = None).
    { intros x Hx.
      destruct (lookup_lt_is_Some_2 results (Z.to_nat x)) as [l Hl]; [lia|].
      destruct (across_listed _ _ _ Hinv _ l Hl) as [Hiff Hlook]. cbn in *.
      replace (Z.of_nat (Z.to_nat x)) with x in * by lia.
      rewrite (Hempty _ l Hl) in *. split; [|done]. intros Hx'. by apply Hiff in Hx'. }
    f_equal. f_equal.
    + destruct ov as [|x ov]; [done|]. exfalso.
      assert (Hx : x ∈ x :: ov) by left.
      pose proof (across_range _ _ _ Hinv x (or_introl Hx)) as Hr.
      by apply Hin in Hr as [Hr _].
    + apply map_eq. intros x. rewrite lookup_empty.
      destruct (ref !! x) as [j|] eqn:Hx; [|done]. exfalso.
      pose proof (across_range _ _ _ Hinv x (or_intror (mk_is_Some _ _ Hx))) as Hr.
      apply Hin in Hr as [_ Hr]. cbn in *. congruence.
Qed.

(** X12: on lists that hold only entries at or above the threshold, as the
    upstream search delivers them, the filter of the loop changes nothing:
    a query index is overlapping exactly when its list is not empty, and it
    is mapped to the index of the first entry of its list. *)
Theorem recheck_redundant_if_thresholded results threshold :
  thresholded threshold results →
  ∃ overlapping reference_of,
    deduplicate_across_datasets results threshold = Ok (overlapping, reference_of)
    ∧ ∀ (a : nat) l, results !! a = Some l →
        (Z.of_nat a ∈ overlapping ↔ l ≠ [])
        ∧ reference_of !! Z.of_nat a = head l.*1.
Proof.
  intros Hthr.
  destruct (deduplicate_across_datasets_inv results threshold)
    as ([ov ref] & Hrun & Hinv).
  exists ov, ref. split; [done|]. intros a l Hl.
  destruct (across_listed _ _ _ Hinv a l Hl) as [Hiff Hlook]. cbn in *.
  unfold thresholded in Hthr. rewrite Forall_lookup in Hthr.
  rewrite (similar_indices_above_all threshold l) in * by by eapply Hthr.
  split; [|done]. rewrite Hiff. by destruct l.
Qed.

End AcrossDatasetsMore.

(** ** The exact-match baseline *)

Section ExactBaseline.
Implicit Types (texts : list string) (st : gset string * list Z).

Lemma first_occurrence_lt texts a : first_occurrence texts a → (a < length texts)%nat.
Proof. intros (t & Ht & _). by eapply lookup_lt_Some. Qed.

Lemma first_occurrence_app_l texts text a :
  (a < length texts)%nat →
  first_occurrence (texts ++ [text]) a ↔ first_occurrence texts a.
Proof.
  intros Ha. unfold first_occurrence. rewrite lookup_app_l by done.
  split; intros (t & Ht & Hfirst); exists t; (split; [done|]); intros b Hb.
  - specialize (Hfirst b Hb). by rewrite lookup_app_l in Hfirst by lia.
  - rewrite lookup_app_l by lia. by apply Hfirst.
Qed.

Lemma first_occurrence_last texts text :
  first_occurrence (texts ++ [text]) (length texts) ↔ text ∉ texts.
Proof.
  unfold first_occurrence. rewrite list_lookup_middle by done. split.
  - intros (t & [= <-] & Hfirst) [b Hb]%list_elem_of_lookup.
    apply lookup_lt_Some in Hb as Hlt. apply (Hfirst b Hlt).
    by rewrite lookup_app_l.
  - intros Hnot. exists text. split; [done|]. intros b Hb.
    rewrite lookup_app_l by done. intros Hbt. apply Hnot.
    by eapply list_elem_of_lookup_2.
Qed.

Lemma exact_inv_step consumed text st :
  exact_inv consumed st →
  exact_inv (consumed ++ [text])
    (if decide (text ∉ st.1)
     then ({[text]} ∪ st.1, st.2 ++ [Z.of_nat (length consumed)])
     else st).
Proof.
  intros [Hseen Hsorted Hfirst Hcount].
  assert (Hrange : ∀ x, x ∈ st.2 → 0 ≤ x < Z.of_nat (length consumed)).
  { intros x (a & -> & Ha%first_occurrence_lt)%Hfirst. lia. }
  assert (Hmem : text ∈ st.1 ↔ text ∈ consumed)
    by (by rewrite Hseen, elem_of_list_to_set).
  assert (Hcases : ∀ x, (∃ a : nat, x = Z.of_nat a
                            ∧ first_occurrence (consumed ++ [text]) a)
            ↔ x ∈ st.2 ∨ (x = Z.of_nat (length consumed) ∧ text ∉ consumed)).
  { intros x. rewrite Hfirst. split.
    - intros (a & -> & Ha). pose proof (first_occurrence_lt _ _ Ha) as Hlt.
      rewrite length_app in Hlt. cbn in Hlt.
      destruct (decide (a = length consumed)) as [->|Hne].
      + right. split; [done|]. by apply first_occurrence_last.
      + left. exists a. split; [done|]. apply first_occurrence_app_l in Ha; [done|lia].
    - intros [(a & -> & Ha)|[-> Hnot]].
      + exists a. split; [done|]. apply first_occurrence_app_l; [|done].
        by apply first_occurrence_lt in Ha.
      + exists (length consumed). split; [done|]. by apply first_occurrence_last. }
  case_decide as Hd; split; cbn.
  - rewrite list_to_set_app_L, Hseen. cbn. set_solver.
  - apply StronglySorted_app_2; [|done|repeat constructor].
    intros x1 x2 Hx1 ->%list_elem_of_singleton. specialize (Hrange x1 Hx1). lia.
  - intros x. rewrite Hcases, elem_of_app, list_elem_of_singleton. naive_solver.
  - rewrite length_app, size_union, size_singleton by set_solver. cbn. lia.
  - rewrite list_to_set_app_L, Hseen. cbn. set_solver.
  - done.
  - intros x. rewrite Hcases. naive_solver.
  - done.
Qed.

Lemma exact_pass_inv post pre st :
  exact_inv pre st →
  exact_inv (pre ++ post) (exact_pass (Z.of_nat (length pre)) post st).
Proof.
  revert pre st. induction post as [|text post IH]; intros pre st Hinv.
  - by rewrite app_nil_r.
  - replace (pre ++ text :: post) with ((pre ++ [text]) ++ post)
      by (by rewrite <- app_assoc).
    assert (Hnext : Z.of_nat (length pre) + 1 = Z.of_nat (length (pre ++ [text]))).
    { rewrite length_app. cbn. lia. }
    pose proof (exact_inv_step pre text st Hinv) as Hstep.
    cbn [exact_pass]. rewrite Hnext. case_decide; by apply IH.
Qed.

Lemma exact_deduplicated_inv texts :
  ∃ seen, exact_inv texts (seen, exact_deduplicated_text_indices texts).
Proof.
  unfold exact_deduplicated_text_indices.
  pose proof (exact_pass_inv texts [] (∅, [])) as Hinv. cbn in Hinv.
  change (Z.of_nat 0) with 0 in Hinv.
  destruct (exact_pass 0 texts (∅, [])) as [seen out]. exists seen. apply Hinv.
  split; cbn; [done|constructor| |done].
  intros x. split; [by intros ?%elem_of_nil|].
  intros (a & _ & Ha%first_occurrence_lt). cbn in Ha. lia.
Qed.

(** X13: the indices kept by the baseline are strictly increasing, and they
    are exactly the positions at which a text occurs for the first time. *)
Theorem exact_keeps_first_occurrences texts :
  StronglySorted Z.lt (exact_deduplicated_text_indices texts)
  ∧ ∀ x, x ∈ exact_deduplicated_text_indices texts ↔
      ∃ a : nat, x = Z.of_nat a ∧ first_occurrence texts a.
Proof.
  destruct (exact_deduplicated_inv texts) as (seen & [_ Hsorted Hfirst _]). done.
Qed.

(** X14: every text of the input is the text of some kept index, and two
    different kept indices never hold the same text. *)
Theorem exact_kept_texts_distinct_and_complete texts :
  (∀ text, text ∈ texts →
     ∃ a : nat, Z.of_nat a ∈ exact_deduplicated_text_indices texts
                ∧ texts !! a = Some text)
  ∧ (∀ (a b : nat) text,
       Z.of_nat a ∈ exact_deduplicated_text_indices texts →
       Z.of_nat b ∈ exact_deduplicated_text_indices texts →
       texts !! a = Some text → texts !! b = Some text → a = b).
Proof.
  destruct (exact_deduplicated_inv texts) as (seen & [_ _ Hfirst _]). cbn in Hfirst.
  split.
  - intros text Hin.
    destruct (list_find_elem_of (λ t, t = text) texts text Hin eq_refl)
      as [[a t] Hfind].
    apply list_find_Some in Hfind as (Ha & -> & Hmin).
    exists a. split; [|done]. apply Hfirst. exists a. split; [done|].
    exists text. split; [done|]. intros b Hb Hbt. by apply (Hmin b text).
  - intros a b text (a' & Ha' & ta & Hta & Hfa)%Hfirst
      (b' & Hb' & tb & Htb & Hfb)%Hfirst Hat Hbt.
    apply Nat2Z.inj in Ha' as <-. apply Nat2Z.inj in Hb' as <-.
    destruct (Nat.lt_trichotomy a b) as [Hlt|[Heq|Hlt]]; [|done|].
    + exfalso. apply (Hfb a Hlt). congruence.
    + exfalso. apply (Hfa b Hlt). congruence.
Qed.

Lemma size_list_to_set_le texts :
  (size (list_to_set texts : gset string) ≤ length texts)%nat.
Proof.
  induction texts as [|t texts IH]; cbn; [by rewrite size_empty|].
  rewrite size_union_alt, size_singleton.
  assert (size (list_to_set texts ∖ {[t]} : gset string)
          ≤ size (list_to_set texts : gset string))%nat
    by (apply subseteq_size; set_solver).
  lia.
Qed.

Lemma size_list_to_set_NoDup texts :
  size (list_to_set texts : gset string) = length texts → NoDup texts.
Proof.
  induction texts as [|t texts IH]; [constructor|]. intros Hsize.
  destruct (decide (t ∈ texts)) as [Hin|Hin].
  - exfalso. pose proof (size_list_to_set_le texts) as Hle.
    replace (list_to_set (t :: texts) : gset string) with
      (list_to_set texts : gset string) in Hsize by (cbn; set_solver).
    cbn in Hsize. lia.
  - constructor; [done|]. apply IH. cbn in Hsize.
    rewrite size_union, size_singleton in Hsize by set_solver. lia.
Qed.

(** X15: the number of kept indices is the number of different texts; it
    is the number of texts exactly when no text occurs twice. *)
Theorem exact_count_is_number_of_distinct_texts texts :
  length (exact_deduplicated_text_indices texts)
  = size (list_to_set texts : gset string)
  ∧ (length (exact_deduplicated_text_indices texts) = length texts ↔ NoDup texts).
Proof.
  destruct (exact_deduplicated_inv texts) as (seen & [Hseen _ _ Hcount]).
  cbn in Hseen, Hcount. rewrite Hcount, Hseen. split; [done|]. split.
  - apply size_list_to_set_NoDup.
  - intros Hnd. by apply size_list_to_set.
Qed.

End ExactBaseline.

(** ** Deduplication with MinHash *)

Section MinHashProperties.
Context {minhash threshold_type : Type}.
Context (new_minhash : nat → minhash) (update : minhash → string → minhash)
  (str_split : string → list string)
  (lsh_query : threshold_type → list (Z * minhash) → minhash → list Z).
Implicit Types (texts : list string) (st : list (Z * minhash) * list Z).

Local Abbreviation get_minhash' := (get_minhash new_minhash update str_split).
Local Abbreviation kept_entries' := (kept_entries new_minhash update str_split).
Local Abbreviation entries_before' :=
  (entries_before new_minhash update str_split).
Local Abbreviation minhash_inv' :=
  (minhash_inv new_minhash update str_split lsh_query).
Local Abbreviation minhash_pass' :=
  (minhash_pass new_minhash update str_split lsh_query).
Local Abbreviation deduplicate_with_minhash' :=
  (deduplicate_with_minhash new_minhash update str_split lsh_query).

Lemma kept_entries_app texts more (kept : list Z) :
  (∀ x, x ∈ kept → 0 ≤ x < Z.of_nat (length texts)) →
  kept_entries' (texts ++ more) kept = kept_entries' texts kept.
Proof.
  intros Hrange. unfold kept_entries. induction kept as [|k kept IH]; [done|].
  cbn. rewrite lookup_app_l by (specialize (Hrange k); set_solver by lia).
  rewrite IH; [done|]. intros x Hx. apply Hrange. by right.
Qed.

Lemma kept_entries_snoc texts (kept : list Z) (k : nat) text :
  texts !! k = Some text →
  kept_entries' texts (kept ++ [Z.of_nat k])
  = kept_entries' texts kept ++ [(Z.of_nat k, get_minhash' text 128)].
Proof.
  intros Hk. unfold kept_entries. rewrite omap_app. cbn.
  by rewrite Nat2Z.id, Hk.
Qed.

Lemma filter_below_all (kept : list Z) (a : Z) :
  (∀ x, x ∈ kept → x < a) → filter (λ k, k < a) kept = kept.
Proof.
  intros Hall. induction kept as [|k kept IH]; [done|].
  rewrite filter_cons_True by (apply Hall; left).
  rewrite IH; [done|]. intros x Hx. apply Hall. by right.
Qed.

Lemma elem_of_kept_entries texts (kept : list Z) (k : nat) text :
  Z.of_nat k ∈ kept → texts !! k = Some text →
  (Z.of_nat k, get_minhash' text 128) ∈ kept_entries' texts kept.
Proof.
  intros Hk Ht. unfold kept_entries. apply list_elem_of_omap.
  exists (Z.of_nat k). split; [done|]. by rewrite Nat2Z.id, Ht.
Qed.

Lemma minhash_inv_step threshold consumed text st :
  minhash_inv' threshold consumed st →
  minhash_inv' threshold (consumed ++ [text])
    (match lsh_query threshold st.1 (get_minhash' text 128) with
     | [] => (st.1 ++ [(Z.of_nat (length consumed), get_minhash' text 128)],
              st.2 ++ [Z.of_nat (length consumed)])
     | _ :: _ => st
     end).
Proof.
  destruct st as [ins out]. intros [Hsorted Hrange Hins Hkept]. cbn in *.
  assert (Hbelow : ∀ x, x ∈ out → x < Z.of_nat (length consumed))
    by (intros x Hx; specialize (Hrange x Hx); lia).
  assert (Hlast : entries_before' (consumed ++ [text]) out
                    (Z.of_nat (length consumed)) = ins).
  { unfold entries_before. rewrite filter_below_all by done.
    by rewrite kept_entries_app. }
  assert (Hold : ∀ (a : nat) (more : list Z), (a < length consumed)%nat →
            (∀ x, x ∈ more → ¬ x < Z.of_nat a) →
            entries_before' (consumed ++ [text]) (out ++ more) (Z.of_nat a)
            = entries_before' consumed out (Z.of_nat a)).
  { intros a more Ha Hmore. unfold entries_before. rewrite filter_app.
    assert (filter (λ k, k < Z.of_nat a) more = []) as ->.
    { induction more as [|y more IH]; [done|].
      rewrite filter_cons_False by (apply Hmore; left).
      apply IH. intros x Hx. apply Hmore. by right. }
    rewrite app_nil_r. apply kept_entries_app.
    intros x [_ Hx]%list_elem_of_filter. by apply Hrange. }
  destruct (lsh_query threshold ins (get_minhash' text 128)) as [|k' found] eqn:Hq;
    split; cbn [fst snd].
  - apply StronglySorted_app_2; [|done|repeat constructor].
    intros x1 x2 Hx1 ->%list_elem_of_singleton. by apply Hbelow.
  - intros x [Hx| ->%list_elem_of_singleton]%elem_of_app; rewrite length_app; cbn.
    + specialize (Hrange x Hx). lia.
    + lia.
  - rewrite (kept_entries_snoc _ _ _ text) by (by rewrite list_lookup_middle).
    rewrite kept_entries_app by done. by rewrite Hins.
  - intros a t Ha. apply lookup_lt_Some in Ha as Hlt.
    rewrite length_app in Hlt. cbn in Hlt.
    destruct (decide (a = length consumed)) as [->|Hne].
    + rewrite list_lookup_middle in Ha by done. injection Ha as <-.
      unfold entries_before. rewrite filter_app.
      rewrite (filter_cons_False _ (Z.of_nat (length consumed))) by lia.
      rewrite app_nil_r. fold (entries_before' (consumed ++ [text]) out
                                  (Z.of_nat (length consumed))).
      rewrite Hlast, Hq. split; [done|]. intros _. apply elem_of_app. right. left.
    + rewrite lookup_app_l in Ha by lia.
      rewrite Hold by (first [lia | intros x ->%list_elem_of_singleton; lia]).
      rewrite <- (Hkept a t Ha), elem_of_app, list_elem_of_singleton.
      split; [intros [?|?]; [done|lia]|by left].
  - done.
  - intros x Hx. specialize (Hrange x Hx). rewrite length_app. cbn. lia.
  - by rewrite kept_entries_app.
  - intros a t Ha. apply lookup_lt_Some in Ha as Hlt.
    rewrite length_app in Hlt. cbn in Hlt.
    destruct (decide (a = length consumed)) as [->|Hne].
    + rewrite list_lookup_middle in Ha by done. injection Ha as <-.
      rewrite Hlast, Hq. split; [|done]. intros Hx. specialize (Hrange _ Hx). lia.
    + rewrite lookup_app_l in Ha by lia.
      rewrite <- (app_nil_r out) at 2.
      rewrite Hold by (first [lia | by intros x ?%elem_of_nil]).
      by apply Hkept.
Qed.

Lemma minhash_pass_inv threshold post pre st :
  minhash_inv' threshold pre st →
  minhash_inv' threshold (pre ++ post)
    (minhash_pass' threshold (Z.of_nat (length pre)) post st).
Proof.
  revert pre st. induction post as [|text post IH]; intros pre st Hinv.
  - by rewrite app_nil_r.
  - replace (pre ++ text :: post) with ((pre ++ [text]) ++ post)
      by (by rewrite <- app_assoc).
    assert (Hnext : Z.of_nat (length pre) + 1 = Z.of_nat (length (pre ++ [text]))).
    { rewrite length_app. cbn. lia. }
    pose proof (minhash_inv_step threshold pre text st Hinv) as Hstep.
    cbn [minhash_pass]. cbv zeta. rewrite Hnext.
    destruct (lsh_query threshold st.1 _); by apply IH.
Qed.

Lemma deduplicate_with_minhash_inv texts threshold :
  ∃ inserted,
    minhash_inv' threshold texts (inserted, deduplicate_with_minhash' texts threshold).
Proof.
  unfold deduplicate_with_minhash.
  pose proof (minhash_pass_inv threshold texts [] ([], [])) as Hinv. cbn in Hinv.
  change (Z.of_nat 0) with 0 in Hinv.
  destruct (minhash_pass' threshold 0 texts ([], [])) as [ins out].
  exists ins. apply Hinv. split; cbn; [constructor| |done|].
  - by intros x ?%elem_of_nil.
  - intros a text. by rewrite lookup_nil.
Qed.

(** X16: the indices [deduplicate_with_minhash] returns are strictly
    increasing positions of [texts], and a position is returned exactly when
    the query of its MinHash finds nothing in the index that holds the
    positions returned before it, and only those. *)
Theorem minhash_keeps_unmatched texts threshold :
  let kept :=
    deduplicate_with_minhash new_minhash update str_split lsh_query texts threshold in
  StronglySorted Z.lt kept
  ∧ (∀ x, x ∈ kept → 0 ≤ x < Z.of_nat (length texts))
  ∧ ∀ (a : nat) text, texts !! a = Some text →
      (Z.of_nat a ∈ kept ↔
       lsh_query threshold
         (entries_before new_minhash update str_split texts kept (Z.of_nat a))
         (get_minhash new_minhash update str_split text 128) = []).
Proof.
  intros kept. subst kept.
  destruct (deduplicate_with_minhash_inv texts threshold)
    as (ins & [Hsorted Hrange _ Hkept]). done.
Qed.

(** X17: when a query always finds an entry with the very MinHash asked
    for, two different returned positions never hold texts with the same
    MinHash; in particular never the same text. *)
Theorem minhash_kept_are_distinct texts threshold :
  let kept :=
    deduplicate_with_minhash new_minhash update str_split lsh_query texts threshold in
  (∀ inserted k m, (k, m) ∈ inserted → lsh_query threshold inserted m ≠ []) →
  ∀ (a b : nat) ta tb,
    Z.of_nat a ∈ kept → Z.of_nat b ∈ kept →
    texts !! a = Some ta → texts !! b = Some tb → a ≠ b →
    get_minhash new_minhash update str_split ta 128
    ≠ get_minhash new_minhash update str_split tb 128
    ∧ ta ≠ tb.
Proof.
  intros kept Hfinds. subst kept.
  destruct (deduplicate_with_minhash_inv texts threshold)
    as (ins & [_ _ _ Hkept]). cbn in Hkept.
  assert (Hlt : ∀ (a b : nat) ta tb,
            Z.of_nat a ∈ deduplicate_with_minhash' texts threshold →
            Z.of_nat b ∈ deduplicate_with_minhash' texts threshold →
            texts !! a = Some ta → texts !! b = Some tb → (a < b)%nat →
            get_minhash' ta 128 ≠ get_minhash' tb 128).
  { intros a b ta tb Ha Hb Hta Htb Hab Heq.
    apply (Hkept b tb Htb) in Hb. revert Hb.
    apply (Hfinds _ (Z.of_nat a)). rewrite <- Heq. unfold entries_before.
    apply elem_of_kept_entries; [|done]. apply list_elem_of_filter. split; [lia|done]. }
  intros a b ta tb Ha Hb Hta Htb Hne.
  assert (Hm : get_minhash' ta 128 ≠ get_minhash' tb 128).
  { destruct (Nat.lt_trichotomy a b) as [Hab|[Hab|Hab]]; [|done|].
    - by apply (Hlt a b).
    - intros Heq. by apply (Hlt b a tb ta). }
  split; [done|]. intros ->. by apply Hm.
Qed.

End MinHashProperties.

(** ** Showing examples *)

Section DisplayProperties.
Context {score : Type} `{Score score}.
Context (display_word_differences : string → string → string).
Implicit Types (results : list (list (@item score))) (texts : list string).

Lemma py_index_valid {A} (l : list A) (k : Z) :
  valid_index l k → ∃ x, py_index l k = Ok x.
Proof.
  unfold valid_index, py_index, list_get. intros Hk.
  destruct (decide (0 ≤ k)).
  - destruct (lookup_lt_is_Some_2 l (Z.to_nat k)) as [x ->]; [lia|]. by exists x.
  - rewrite decide_True by lia.
    destruct (lookup_lt_is_Some_2 l (Z.to_nat (Z.of_nat (length l) + k)))
      as [x ->]; [lia|]. by exists x.
Qed.

Lemma py_index_raises {A} (l : list A) (k : Z) e :
  py_index l k = Raise e → e = IndexError ∧ ¬ valid_index l k.
Proof.
  intros Hr. split.
  - unfold py_index, list_get in Hr. repeat case_decide;
      repeat (destruct (_ !! _)); congruence.
  - intros [x Hx]%py_index_valid. congruence.
Qed.

Lemma show_overlap_ok texts_train texts_test (mapping : gmap Z Z) test_idx train_idx :
  mapping !! test_idx = Some train_idx →
  valid_index texts_train train_idx → valid_index texts_test test_idx →
  ∃ lines, show_overlap display_word_differences texts_train texts_test mapping
             test_idx = Ok lines
           ∧ length lines = 5%nat.
Proof.
  intros Hm [x Hx]%py_index_valid [y Hy]%py_index_valid.
  unfold show_overlap, dict_get. rewrite Hm. cbn. rewrite Hx. cbn. rewrite Hy. cbn.
  eexists. split; [done|done].
Qed.

Lemma show_overlap_no_key_error texts_train texts_test (mapping : gmap Z Z)
    test_idx k :
  is_Some (mapping !! test_idx) →
  show_overlap display_word_differences texts_train texts_test mapping test_idx
  ≠ Raise (KeyError k).
Proof.
  intros [train_idx Hm]. unfold show_overlap, dict_get. rewrite Hm. cbn.
  destruct (py_index texts_train train_idx) as [x|e] eqn:Hx; cbn.
  - destruct (py_index texts_test test_idx) as [y|e] eqn:Hy; cbn; [done|].
    apply py_index_raises in Hy as [-> _]. done.
  - apply py_index_raises in Hx as [-> _]. done.
Qed.

Lemma show_overlaps_ok texts_train texts_test (mapping : gmap Z Z)
    (indices : list Z) printed :
  (∀ x, x ∈ indices → valid_index texts_test x
     ∧ ∃ j, mapping !! x = Some j ∧ valid_index texts_train j) →
  ∃ out, show_overlaps display_word_differences texts_train texts_test mapping
           indices printed = Ok out
         ∧ length out = (length printed + 5 * length indices)%nat.
Proof.
  revert printed. induction indices as [|x indices IH]; intros printed Hall.
  - exists printed. split; [done|]. cbn. lia.
  - destruct (Hall x) as (Hx & j & Hj & Hvj); [left|].
    destruct (show_overlap_ok texts_train texts_test mapping x j Hj Hvj Hx)
      as (lines & Hlines & Hlen).
    cbn [show_overlaps]. rewrite Hlines. cbn.
    destruct (IH (printed ++ lines)) as (out & Hout & Hlen').
    { intros y Hy. apply Hall. by right. }
    exists out. split; [done|]. rewrite Hlen', length_app, Hlen. cbn. lia.
Qed.

Lemma show_overlaps_no_key_error texts_train texts_test (mapping : gmap Z Z)
    (indices : list Z) printed k :
  (∀ x, x ∈ indices → is_Some (mapping !! x)) →
  show_overlaps display_word_differences texts_train texts_test mapping
    indices printed ≠ Raise (KeyError k).
Proof.
  revert printed. induction indices as [|x indices IH]; intros printed Hall; [done|].
  cbn [show_overlaps].
  destruct (show_overlap display_word_differences texts_train texts_test mapping x)
    as [lines|e] eqn:Hx; cbn.
  - apply IH. intros y Hy. apply Hall. by right.
  - intros [= ->]. revert Hx. apply show_overlap_no_key_error. apply Hall. left.
Qed.

(** X18: on what [deduplicate_across_datasets] returns, the cell that shows
    the overlaps never raises [KeyError], whatever the texts and however
    many examples are asked for. *)
Theorem show_test_overlaps_no_key_error results threshold texts_train texts_test
    num_examples :
  ∃ overlapping reference_of,
    deduplicate_across_datasets results threshold = Ok (overlapping, reference_of)
    ∧ ∀ k, show_test_overlaps display_word_differences texts_train texts_test
             overlapping reference_of num_examples ≠ Raise (KeyError k).
Proof.
  destruct (deduplicate_across_datasets_shape results threshold)
    as ([ov ref] & Hrun & _ & _ & Hdom & _). cbn in Hdom.
  exists ov, ref. split; [done|]. intros k. unfold show_test_overlaps.
  apply show_overlaps_no_key_error. intros x (a & Hx & _)%elem_of_take.
  apply elem_of_dom. rewrite Hdom, elem_of_list_to_set.
  by eapply list_elem_of_lookup_2.
Qed.

(** X19: when there is a test text for every candidate list and every
    candidate index is a valid index into the train texts, the cell that
    shows the overlaps completes, and prints five strings for each of the
    first [num_examples] overlapping indices. *)
Theorem show_test_overlaps_completes results threshold texts_train texts_test
    num_examples :
  (length results ≤ length texts_test)%nat →
  (∀ (a : nat) j s, neighbour results a j s → valid_index texts_train j) →
  ∃ overlapping reference_of printed,
    deduplicate_across_datasets results threshold = Ok (overlapping, reference_of)
    ∧ show_test_overlaps display_word_differences texts_train texts_test
        overlapping reference_of num_examples = Ok printed
    ∧ length printed = (5 * (num_examples `min` length overlapping))%nat.
Proof.
  intros Hlen Hvalid.
  destruct (deduplicate_across_datasets_shape results threshold)
    as ([ov ref] & Hrun & _ & Hrange & Hdom & _). cbn in Hrange, Hdom.
  destruct (deduplicate_across_datasets_inv results threshold)
    as (st & Hrun' & Hinv). rewrite Hrun in Hrun'. injection Hrun' as <-.
  destruct (show_overlaps_ok texts_train texts_test ref (take num_examples ov) [])
    as (out & Hout & Hn).
  - intros x (a & Hx%list_elem_of_lookup_2 & _)%elem_of_take. split.
    + specialize (Hrange x Hx). unfold valid_index. lia.
    + assert (Hin : x ∈ dom ref) by (by rewrite Hdom, elem_of_list_to_set).
      apply elem_of_dom in Hin as [j Hj]. exists j. split; [done|].
      destruct (across_reference_candidate results threshold (ov, ref) x j Hinv Hj)
        as (a' & s & _ & Hn & _).
      by eapply Hvalid.
  - exists ov, ref, out. split; [done|]. split; [done|].
    rewrite Hn, length_take. cbn. lia.
Qed.

(** X20: when there is a text for each of the [n] documents, the body of
    the loop that shows the duplicates completes for every item of the
    mapping that [deduplicate] returns, and prints five strings. *)
Theorem show_duplicate_completes n results texts :
  length texts = n →
  ∃ kept dup, deduplicate n results = Ok (kept, dup)
    ∧ ∀ j i, dup !! j = Some i →
        ∃ lines, show_duplicate display_word_differences texts j i = Ok lines
                 ∧ length lines = 5%nat.
Proof.
  intros Hlen.
  destruct (deduplicate_values_in_range n results)
    as (kept & dup & Hrun & Hinv & Hval).
  exists kept, dup. split; [done|]. intros j i Hji.
  pose proof (inv_range _ _ _ _ Hinv j i Hji) as Hj. specialize (Hval j i Hji).
  destruct (py_index_valid texts i) as [x Hx]; [unfold valid_index; lia|].
  destruct (py_index_valid texts j) as [y Hy]; [unfold valid_index; lia|].
  unfold show_duplicate. rewrite Hx. cbn. rewrite Hy. cbn.
  eexists. split; [done|done].
Qed.

End DisplayProperties.

(** ** The further results at sample inputs *)

Example exact_baseline_sample :
  exact_deduplicated_text_indices sample_texts = [0; 1; 3].
Proof. vm_compute. reflexivity. Qed.

Example minhash_sample :
  deduplicate_with_minhash (λ _, []) sample_update (λ text, [text])
    sample_lsh_query sample_texts (9#10) = [0; 1; 3].
Proof. vm_compute. reflexivity. Qed.

Lemma representative_is_lower_if_symmetric_witness :
  symmetric cat_results
  ∧ ∃ kept dup, deduplicate 3 cat_results = Ok (kept, dup)
                ∧ ∀ j i, dup !! j = Some i → i < j.
Proof.
  split; [exact cat_results_symmetric|].
  exact (representative_is_lower_if_symmetric 3 cat_results cat_results_symmetric).
Defined.

Lemma recheck_redundant_if_thresholded_witness :
  thresholded (99#100) cat_results
  ∧ ∃ overlapping reference_of,
      deduplicate_across_datasets cat_results (99#100)
      = Ok (overlapping, reference_of)
      ∧ ∀ (a : nat) l, cat_results !! a = Some l →
          (Z.of_nat a ∈ overlapping ↔ l ≠ [])
          ∧ reference_of !! Z.of_nat a = head l.*1.
Proof.
  split; [exact cat_results_thresholded|].
  exact (recheck_redundant_if_thresholded cat_results (99#100)
           cat_results_thresholded).
Defined.

Lemma sample_lsh_query_finds threshold (inserted : list (Z * list string)) k m :
  (k, m) ∈ inserted → sample_lsh_query threshold inserted m ≠ [].
Proof.
  intros Hin. unfold sample_lsh_query.
  assert (Hf : (k, m) ∈ filter (λ e : Z * list string, e.2 = m) inserted)
    by (by apply list_elem_of_filter).
  destruct (filter _ inserted); [by apply elem_of_nil in Hf|done].
Qed.

Lemma minhash_kept_are_distinct_witness :
  get_minhash (λ _, []) sample_update (λ text, [text]) "a cat sat" 128
  ≠ get_minhash (λ _, []) sample_update (λ text, [text]) "a cat sat." 128
  ∧ "a cat sat"%string ≠ "a cat sat."%string.
Proof.
  apply (minhash_kept_are_distinct (λ _, []) sample_update (λ text, [text])
           sample_lsh_query sample_texts (9#10)
           (sample_lsh_query_finds (9#10)) 0 3).
  - vm_compute. repeat first [left; reflexivity | right].
  - vm_compute. repeat first [left; reflexivity | right].
  - reflexivity.
  - reflexivity.
  - lia.
Defined.

Lemma neighbour_in_range {score : Type} n (results : list (list (@item score)))
    a j s :
  indices_in_range n results → neighbour results a j s → 0 ≤ j < Z.of_nat n.
Proof.
  intros Hr (l & Hl & Hin). unfold indices_in_range in Hr.
  rewrite Forall_lookup in Hr. specialize (Hr a l Hl).
  rewrite Forall_forall in Hr. exact (Hr (j, s) Hin).
Qed.

Lemma cat_results_in_range : indices_in_range 3 cat_results.
Proof. unfold indices_in_range, cat_results. repeat constructor; cbn; lia. Qed.

Lemma show_test_overlaps_completes_witness :
  ∃ overlapping reference_of printed,
    deduplicate_across_datasets cat_results (99#100)
    = Ok (overlapping, reference_of)
    ∧ show_test_overlaps sample_differences
        ["a cat sat"; "a cat sat."; "a dog ran"]%string
        ["a cat sat"; "a cat sat."; "a dog ran"]%string
        overlapping reference_of 5 = Ok printed
    ∧ length printed = (5 * (5 `min` length overlapping))%nat.
Proof.
  apply (show_test_overlaps_completes sample_differences cat_results (99#100)).
  - cbn. lia.
  - intros a j s Hn. apply (neighbour_in_range 3) in Hn; [|exact cat_results_in_range].
    unfold valid_index. cbn. lia.
Defined.

Lemma show_duplicate_completes_witness :
  ∃ kept dup, deduplicate 3 cat_results = Ok (kept, dup)
    ∧ ∀ j i, dup !! j = Some i →
        ∃ lines, show_duplicate sample_differences
                   ["a cat sat"; "a cat sat."; "a dog ran"]%string j i = Ok lines
                 ∧ length lines = 5%nat.
Proof.
  apply (show_duplicate_completes sample_differences 3 cat_results). reflexivity.
Defined.

(** ** The whole calls: the search, then the pass *)

Section WholeCalls.
Context {score : Type} `{Score score}.
Context (similarity : nat → nat → score) (arrange : list (@item score) → list (@item score)).
Implicit Types (threshold : score).

(** What is delivered for a query row is an indexed row at or above the
    threshold, with its score. *)
Lemma threshold_candidates_elem q n threshold j s :
  (∀ l, arrange l ⊆ l) →
  (j, s) ∈ threshold_candidates similarity arrange q n threshold →
  ∃ d : nat, (d < n)%nat ∧ j = Z.of_nat d ∧ s = similarity q d
             ∧ score_ge s threshold = true.
Proof.
  intros Hsub Hin. unfold threshold_candidates in Hin. apply Hsub in Hin.
  apply list_elem_of_filter in Hin as [Hs Hin].
  apply list_elem_of_fmap in Hin as (d & [= -> ->] & Hd%elem_of_seq).
  exists d. split; [lia|done].
Qed.


Lemma nearest_neighbor_threshold_neighbour n_indexed n_queries threshold a j s :
  (∀ l, arrange l ⊆ l) →
  neighbour (nearest_neighbor_threshold similarity arrange n_indexed n_queries threshold)
    a j s →
  (a < n_queries)%nat
  ∧ ∃ d : nat, (d < n_indexed)%nat ∧ j = Z.of_nat d ∧ s = similarity a d
               ∧ score_ge s threshold = true.
Proof.
  intros Hsub (l & Hl & Hin). unfold nearest_neighbor_threshold in Hl.
  apply list_lookup_fmap_Some in Hl as (q & -> & Hq).
  apply lookup_seq in Hq as [-> Hq]. split; [done|].
  by apply threshold_candidates_elem in Hin.
Qed.


(** C2: in the call [deduplicate(embedding_matrix, threshold)], an index [j]
    is removed from the canonical set and mapped to [i] only if
    [score(i, j) >= threshold]; a pair whose score is below the threshold
    gives no mapping, and a document whose score with every other document
    is below the threshold is not removed. *)
Theorem removed_only_at_or_above_threshold n threshold :
  (∀ l, arrange l ⊆ l) →
  ∃ kept dup,
    deduplicate_call similarity arrange n threshold = Ok (kept, dup)
    ∧ (∀ j i, dup !! j = Some i →
         (j ∉ kept)
         ∧ ∃ a b : nat, i = Z.of_nat a ∧ j = Z.of_nat b
                        ∧ score_ge (similarity a b) threshold = true)
    ∧ (∀ a b : nat, score_ge (similarity a b) threshold = false →
         dup !! Z.of_nat b ≠ Some (Z.of_nat a))
    ∧ (∀ b : nat, (b < n)%nat →
         (∀ a : nat, a ≠ b → score_ge (similarity a b) threshold = false) →
         Z.of_nat b ∈ kept).
Proof.
  intros Hsub. unfold deduplicate_call.
  destruct (deduplicate_pass_inv n
              (nearest_neighbor_threshold similarity arrange n n threshold))
    as (kept & dup & Hrun & Hinv).
  assert (Horigin : ∀ j i, dup !! j = Some i →
            ∃ a b : nat, i = Z.of_nat a ∧ j = Z.of_nat b ∧ a ≠ b
                         ∧ score_ge (similarity a b) threshold = true).
  { intros j i Hji.
    destruct (inv_origin _ _ _ _ Hinv j i Hji) as (Hne & a & s & _ & -> & Hn).
    apply nearest_neighbor_threshold_neighbour in Hn
      as (_ & d & _ & -> & -> & Hs); [|done].
    exists a, d. repeat split; [|done]. intros ->. by apply Hne. }
  exists kept, dup. split; [done|]. split; [|split].
  - intros j i Hji. split.
    + intros Hj. apply (inv_kept _ _ _ _ Hinv) in Hj. cbn in Hj. naive_solver.
    + destruct (Horigin j i Hji) as (a & b & -> & -> & _ & Hs). by exists a, b.
  - intros a b Hlow Hba.
    destruct (Horigin _ _ Hba) as (a' & b' & Ha & Hb & _ & Hs).
    apply Nat2Z.inj in Ha as <-. apply Nat2Z.inj in Hb as <-. congruence.
  - intros b Hb Hlow. apply (inv_kept _ _ _ _ Hinv). cbn. split; [lia|].
    destruct (dup !! Z.of_nat b) as [i|] eqn:Hbi; [|done]. exfalso.
    destruct (Horigin _ _ Hbi) as (a' & b' & -> & Hb' & Hne & Hs).
    apply Nat2Z.inj in Hb' as <-. rewrite (Hlow a' Hne) in Hs. done.
Qed.


End WholeCalls.

(** The scenario of the two near-identical sentences as a whole call. *)
Example deduplicate_call_cats :
  nearest_neighbor_threshold cat_similarity (λ l, l) 3 3 (99#100)
  = [[(0, 1#1); (1, 99#100)]; [(0, 99#100); (1, 1#1)]; [(2, 1#1)]]
  ∧ deduplicate_call cat_similarity (λ l, l) 3 (99#100) = Ok ({[0; 2]}, {[1 := 0]}).
Proof. split; vm_compute; reflexivity. Qed.

Lemma removed_only_at_or_above_threshold_witness :
  ∃ kept dup,
    deduplicate_call cat_similarity (λ l, l) 3 (99#100) = Ok (kept, dup)
    ∧ (∀ j i, dup !! j = Some i →
         (j ∉ kept)
         ∧ ∃ a b : nat, i = Z.of_nat a ∧ j = Z.of_nat b
                        ∧ score_ge (cat_similarity a b) (99#100) = true)
    ∧ (∀ a b : nat, score_ge (cat_similarity a b) (99#100) = false →
         dup !! Z.of_nat b ≠ Some (Z.of_nat a))
    ∧ (∀ b : nat, (b < 3)%nat →
         (∀ a : nat, a ≠ b → score_ge (cat_similarity a b) (99#100) = false) →
         Z.of_nat b ∈ kept).
Proof.
  apply (removed_only_at_or_above_threshold cat_similarity (λ l, l) 3 (99#100)).
  intros l x Hx. exact Hx.
Defined.

